(** * A model of the bed job executor (src/lib.rs)

    Jobs contain tasks, tasks contain command steps.  The two schedulers
    ([Job::run] over tasks, [Runner::run] over jobs) share one loop, modelled
    once as [sched] and instantiated twice.  Every update of the shared status
    tracker is emitted as an [Op] (the closures the code passes to [modify],
    defunctionalised), so that the order in which concurrent units of work
    touch the tracker can be reasoned about; [apply_op] replays them on the
    tracker map. *)

From Stdlib Require Import String List ZArith Lia Bool Permutation.
From stdpp Require Import base gmap strings list.
Import ListNotations.

Open Scope list_scope.

(** ** Data model *)

Inductive Status := Pending | Running | Finished | Failed.

(** [std::process::ExitStatus]: [code] is [None] when the process was
    terminated by a signal; [success()] holds iff the code is 0. *)
Record ExitStatus := { code : option Z }.

Definition success (st : ExitStatus) : bool :=
  match code st with Some 0%Z => true | _ => false end.

(** [std::io::Error], kept abstract as its kind. *)
Inductive IoError := IoErr (kind : string).

(** [enum Step { Command { args } }] *)
Inductive Step := Command (args : list string).

(** [struct Task] *)
Record Task := { task_name : string; task_depends : list string; steps : list Step }.

(** [struct Job] *)
Record Job := { job_name : string; job_depends : list string; tasks : list Task }.

(** [enum Error]; the [JoinError] and [serde_yml::Error] payloads are
    dropped, only their presence matters here. *)
Inductive Error :=
| CircularDependency
| Exit (status : ExitStatus)
| Io (e : IoError)
| JobFailed (job : Job)
| Join
| MissingDependency (name : string)
| Serde
| TaskFailed (task : Task).

(** Rust's [Result]. *)
Inductive Result (A E : Type) := Ok (a : A) | Err (e : E).
Arguments Ok {A E} a.
Arguments Err {A E} e.

(** How a Rust computation ends: it returns a value, or it panics. *)
Inductive Outcome (A : Type) := Returned (a : A) | Panicked.
Arguments Returned {A} a.
Arguments Panicked {A}.

(** ** Tracker records *)

(** [enum StepStatus { Command { args, output, status } }] *)
Inductive StepStatus := SCommand (args output : list string) (status : Status).

Record TaskStatus := {
  ts_name : string; ts_depends : list string;
  ts_steps : list StepStatus; ts_status : Status }.

Record JobStatus := {
  js_name : string; js_depends : list string;
  js_tasks : list TaskStatus; js_status : Status }.

(** [JobTracker { jobs: Arc<Mutex<HashMap<String, JobStatus>>> }]: the
    contents of the shared map. *)
Abbreviation JobTracker := (gmap string JobStatus).

Definition set_job_status (st : Status) (j : JobStatus) : JobStatus :=
  {| js_name := js_name j; js_depends := js_depends j;
     js_tasks := js_tasks j; js_status := st |}.

Definition set_job_tasks (ts : list TaskStatus) (j : JobStatus) : JobStatus :=
  {| js_name := js_name j; js_depends := js_depends j;
     js_tasks := ts; js_status := js_status j |}.

Definition set_task_status (st : Status) (t : TaskStatus) : TaskStatus :=
  {| ts_name := ts_name t; ts_depends := ts_depends t;
     ts_steps := ts_steps t; ts_status := st |}.

Definition set_task_steps (ss : list StepStatus) (t : TaskStatus) : TaskStatus :=
  {| ts_name := ts_name t; ts_depends := ts_depends t;
     ts_steps := ss; ts_status := ts_status t |}.

(** [match step { StepStatus::Command { status, .. } => *status = st }] *)
Definition set_step_status (st : Status) (s : StepStatus) : StepStatus :=
  match s with SCommand a o _ => SCommand a o st end.

(** [output.push(message.to_string())] *)
Definition push_output (line : string) (s : StepStatus) : StepStatus :=
  match s with SCommand a o st => SCommand a (o ++ [line]) st end.

(** [JobTracker::get] *)
Definition jt_get (name : string) (m : JobTracker) : option JobStatus := m !! name.

(** [JobTracker::insert] *)
Definition jt_insert (job : JobStatus) (m : JobTracker) : JobTracker :=
  <[js_name job := job]> m.

(** [JobTracker::modify]: [if let Some(job) = jobs.get_mut(name) { f(job) }] *)
Definition jt_modify (name : string) (f : JobStatus -> JobStatus) (m : JobTracker)
  : JobTracker :=
  match m !! name with
  | Some j => <[name := f j]> m
  | None => m
  end.

(** [iter().find(p)] and [iter_mut().find(p)] followed by a mutation. *)
Fixpoint find_first {A} (p : A -> bool) (l : list A) : option A :=
  match l with
  | [] => None
  | x :: r => if p x then Some x else find_first p r
  end.

Fixpoint modify_first {A} (p : A -> bool) (f : A -> A) (l : list A) : list A :=
  match l with
  | [] => []
  | x :: r => if p x then f x :: r else x :: modify_first p f r
  end.

(** [TaskTracker { job_name, job_tracker }]: a view on one job. *)
Record TaskTracker := { tt_job_name : string }.

(** [TaskTracker::get] *)
Definition tt_get (tt : TaskTracker) (name : string) (m : JobTracker)
  : option TaskStatus :=
  match jt_get (tt_job_name tt) m with
  | Some job => find_first (fun t => String.eqb (ts_name t) name) (js_tasks job)
  | None => None
  end.

(** [TaskTracker::modify] *)
Definition tt_modify (tt : TaskTracker) (name : string)
  (f : TaskStatus -> TaskStatus) (m : JobTracker) : JobTracker :=
  jt_modify (tt_job_name tt)
    (fun job => set_job_tasks
       (modify_first (fun t => String.eqb (ts_name t) name) f (js_tasks job)) job) m.

(** [StepTracker { task_name, task_tracker }]: a view on one task. *)
Record StepTracker := { st_task_name : string; st_task_tracker : TaskTracker }.

(** [StepTracker::get]: [task.steps.get(index).cloned()] *)
Definition st_get (st : StepTracker) (index : nat) (m : JobTracker)
  : option StepStatus :=
  match tt_get (st_task_tracker st) (st_task_name st) m with
  | Some task => ts_steps task !! index
  | None => None
  end.

(** [StepTracker::modify]: [if let Some(step) = task.steps.get_mut(index)]. *)
Definition st_modify (st : StepTracker) (index : nat)
  (f : StepStatus -> StepStatus) (m : JobTracker) : JobTracker :=
  tt_modify (st_task_tracker st) (st_task_name st)
    (fun task => set_task_steps (alter f index (ts_steps task)) task) m.

(** [StepTracker::log] (the [print!] is not modelled). *)
Definition st_log (st : StepTracker) (index : nat) (message : string)
  (m : JobTracker) : JobTracker :=
  st_modify st index (push_output message) m.

(** ** Tracker updates as data

    The only closures the code hands to [modify] set a status or push an
    output line; [Op] names each such call. *)
Inductive Op :=
| OpJob (job : string) (st : Status)
| OpTask (job task : string) (st : Status)
| OpStep (job task : string) (index : nat) (st : Status)
| OpLog (job task : string) (index : nat) (line : string).

Definition step_tracker (job task : string) : StepTracker :=
  {| st_task_name := task; st_task_tracker := {| tt_job_name := job |} |}.

Definition apply_op (op : Op) (m : JobTracker) : JobTracker :=
  match op with
  | OpJob j st => jt_modify j (set_job_status st) m
  | OpTask j t st => tt_modify {| tt_job_name := j |} t (set_task_status st) m
  | OpStep j t i st => st_modify (step_tracker j t) i (set_step_status st) m
  | OpLog j t i line => st_log (step_tracker j t) i line m
  end.

(** The tracker after a sequence of updates, applied in order. *)
Fixpoint apply_ops (ops : list Op) (m : JobTracker) : JobTracker :=
  match ops with
  | [] => m
  | op :: r => apply_ops r (apply_op op m)
  end.

(** ** Step::run *)

(** What the operating system does with [Command::new(exe).args(rest).spawn()]
    and the following [child.wait()]: either the spawn fails, or the process
    runs, writes [lines] (relayed to [log] by the two reader tasks) and
    [wait] yields its exit status or an I/O error. *)
Inductive ProcOutcome :=
| SpawnFailed (e : IoError)
| Spawned (lines : list string) (wait : Result ExitStatus IoError).

Definition Os := string -> list string -> ProcOutcome.

(** [&v[k..]]: panics when [k > v.len()]. *)
Definition slice_from {A} (k : nat) (l : list A) : option (list A) :=
  if Nat.leb k (length l) then Some (skipn k l) else None.

Definition step_op (tracker : StepTracker) (index : nat) (st : Status) : Op :=
  OpStep (tt_job_name (st_task_tracker tracker)) (st_task_name tracker) index st.

Definition log_op (tracker : StepTracker) (index : nat) (line : string) : Op :=
  OpLog (tt_job_name (st_task_tracker tracker)) (st_task_name tracker) index line.

(** [Step::run]: mark Running, spawn [args[0]] with [args[1..]], relay the
    output lines, wait, then mark Finished or Failed.  The reader tasks run
    concurrently with [wait]; their [log] calls are placed before the final
    status update here.  In the code the reader tasks are never awaited, so
    some of these lines may reach the tracker after the final status update,
    or after [Step::run] returns; only the output lines are affected. *)
Definition step_run (os : Os) (s : Step) (index : nat) (tracker : StepTracker)
  : Outcome (Result unit Error) * list Op :=
  match s with
  | Command args =>
      let running := step_op tracker index Running in
      match nth_error args 0, slice_from 1 args with
      | Some exe, Some rest =>
          match os exe rest with
          | SpawnFailed e => (Returned (Err (Io e)), [running])
          | Spawned lines wait =>
              let logs := map (log_op tracker index) lines in
              match wait with
              | Err e => (Returned (Err (Io e)), running :: logs)
              | Ok status =>
                  if success status then
                    (Returned (Ok tt), running :: logs ++ [step_op tracker index Finished])
                  else
                    (Returned (Err (Exit status)),
                      running :: logs ++ [step_op tracker index Failed])
              end
          end
      | _, _ => (Panicked, [running])
      end
  end.

(** ** Task::run: [for (index, step) in steps.enumerate() { step.run(index, ..).await? }] *)
Fixpoint steps_run (os : Os) (ss : list Step) (index : nat) (tracker : StepTracker)
  : Outcome (Result unit Error) * list Op :=
  match ss with
  | [] => (Returned (Ok tt), [])
  | s :: rest =>
      let (o, ops) := step_run os s index tracker in
      match o with
      | Returned (Ok _) =>
          let (o', ops') := steps_run os rest (S index) tracker in (o', ops ++ ops')
      | Returned (Err e) => (Returned (Err e), ops)
      | Panicked => (Panicked, ops)
      end
  end.

Definition task_run (os : Os) (t : Task) (tracker : StepTracker)
  : Outcome (Result unit Error) * list Op :=
  steps_run os (steps t) 0 tracker.

(** [Task::ready] / [Job::ready]:
    [depends.iter().all(|name| finished.iter().any(|n| n.name == *name))]. *)
Definition ready {N} (name : N -> string) (depends : list string)
  (finished : list N) : bool :=
  forallb (fun d => existsb (fun m => String.eqb (name m) d) finished) depends.

(** [select_all] resolves with whichever in-flight unit completes first:
    [extract i running] takes the [i]-th one out. *)
Fixpoint extract {A} (i : nat) (l : list A) {struct l} : option (A * list A) :=
  match l with
  | [] => None
  | x :: r =>
      match i with
      | 0 => Some (x, r)
      | S k => match extract k r with
               | Some (y, r') => Some (y, x :: r')
               | None => None
               end
      end
  end.

(** ** The scheduling loop shared by [Job::run] and [Runner::run] *)
Section Sched.
Context {N : Type}.
(** [name] and [depends] of a node *)
Variable name : N -> string.
Variable depends : N -> list string.
(** the awaited future of a launched node: [task.run(..)] / [job.run(..)],
    returning the node after its run *)
Variable work : N -> Outcome (Result N Error) * list Op.
(** [tracker.modify(name, |n| n.status = st)] at this level *)
Variable mark : string -> Status -> Op.

(** The body of the spawned future: run, then mark Finished or Failed.  A
    panic unwinds past the status update and surfaces as a [JoinError]. *)
Definition unit_run (n : N) : Outcome (Result N Error) * list Op :=
  let (o, ops) := work n in
  match o with
  | Returned (Ok n') => (Returned (Ok n'), ops ++ [mark (name n) Finished])
  | Returned (Err e) => (Returned (Err e), ops ++ [mark (name n) Failed])
  | Panicked => (Panicked, ops)
  end.

(** One turn of [loop]: [pending.retain] launches every ready node in order
    (spawn, then mark Running), then either awaits one unit ([orc] says which
    one completes first), or returns.  The Rust [else if running.is_empty()]
    is always taken when reached, as [running] is then empty; so the loop
    turns again only after a completion, and [fuel] counts turns ([None]
    when it runs out). *)
Fixpoint sched (fuel : nat) (orc : list nat) (pending running finished : list N)
  : option (Result (list N) Error) * list Op :=
  match fuel with
  | 0 => (None, [])
  | S fuel' =>
      let launched := List.filter (fun n => ready name (depends n) finished) pending in
      let pending' := List.filter (fun n => negb (ready name (depends n) finished)) pending in
      let running' := running ++ launched in
      let marks := map (fun n => mark (name n) Running) launched in
      match running' with
      | [] =>
          match pending' with
          | [] => (Some (Ok finished), marks)
          | _ :: _ => (Some (Err CircularDependency), marks)
          end
      | _ :: _ =>
          match extract (Nat.modulo (hd 0 orc) (length running')) running' with
          | None => (None, marks)
          | Some (n, rest) =>
              let (o, ops) := unit_run n in
              match o with
              | Returned (Ok n') =>
                  let (r, ops') := sched fuel' (tl orc) pending' rest (finished ++ [n']) in
                  (r, marks ++ ops ++ ops')
              | Returned (Err e) => (Some (Err e), marks ++ ops)
              | Panicked => (Some (Err Join), marks ++ ops)
              end
          end
      end
  end.
End Sched.

(** The dependency check that precedes both loops: the first [depends] entry,
    in declaration order, that names no node of [all]. *)
Fixpoint first_missing_in {N} (name : N -> string) (depends : N -> list string)
  (all ns : list N) : option string :=
  match ns with
  | [] => None
  | n :: r =>
      match find_first (fun d => negb (existsb (fun m => String.eqb (name m) d) all))
              (depends n) with
      | Some d => Some d
      | None => first_missing_in name depends all r
      end
  end.

Definition first_missing {N} (name : N -> string) (depends : N -> list string)
  (all : list N) : option string :=
  first_missing_in name depends all all.

(** ** Job::run *)

(** The future spawned for a ready task: [task.run(StepTracker::new(..))],
    yielding the task on success. *)
Definition task_unit (os : Os) (jn : string) (t : Task)
  : Outcome (Result Task Error) * list Op :=
  let (o, ops) := task_run os t (step_tracker jn (task_name t)) in
  (match o with
   | Returned (Ok _) => Returned (Ok t)
   | Returned (Err e) => Returned (Err e)
   | Panicked => Panicked
   end, ops).

Definition with_tasks (self : Job) (ts : list Task) : Job :=
  {| job_name := job_name self; job_depends := job_depends self; tasks := ts |}.

Definition job_sched (os : Os) (self : Job) :=
  sched task_name task_depends (task_unit os (job_name self))
    (fun n st => OpTask (job_name self) n st).

(** [Job::run(&mut self, tracker)]: the result, [self] afterwards, and the
    tracker updates ([orc] resolves each [select_all]). *)
Definition job_run (os : Os) (orc : list nat) (self : Job)
  : option (Result unit Error) * Job * list Op :=
  match first_missing task_name task_depends (tasks self) with
  | Some d =>
      (Some (Err (MissingDependency (String.append (job_name self) (String.append "/" d)))),
       self, [])
  | None =>
      let (r, ops) := job_sched os self (S (length (tasks self))) orc (tasks self) [] [] in
      match r with
      | Some (Ok finished) => (Some (Ok tt), with_tasks self finished, ops)
      | Some (Err e) => (Some (Err e), self, ops)
      | None => (None, self, ops)
      end
  end.

(** ** Runner::run *)

Definition step_status_of (s : Step) : StepStatus :=
  match s with Command args => SCommand args [] Pending end.

Definition task_status_of (t : Task) : TaskStatus :=
  {| ts_name := task_name t; ts_depends := task_depends t;
     ts_steps := map step_status_of (steps t); ts_status := Pending |}.

Definition job_status_of (j : Job) : JobStatus :=
  {| js_name := job_name j; js_depends := job_depends j;
     js_tasks := map task_status_of (tasks j); js_status := Pending |}.

(** The first loop of [Runner::run]: check each job's dependencies, then
    [tracker.insert] its status record. *)
Fixpoint validate (all js : list Job) (m : JobTracker) : Result unit Error * JobTracker :=
  match js with
  | [] => (Ok tt, m)
  | j :: r =>
      match find_first (fun d => negb (existsb (fun u => String.eqb (job_name u) d) all))
              (job_depends j) with
      | Some d => (Err (MissingDependency d), m)
      | None => validate all r (jt_insert (job_status_of j) m)
      end
  end.

(** The future spawned for a ready job: [job.run(TaskTracker::new(..))],
    yielding the job as [run] left it; [orcs j] resolves the [select_all]s of
    the inner loop.  [job_run] never runs out of fuel
    ([job_run_terminates]), so its [None] case does not arise. *)
Definition job_unit (os : Os) (orcs : Job -> list nat) (j : Job)
  : Outcome (Result Job Error) * list Op :=
  match job_run os (orcs j) j with
  | (Some (Ok _), j', ops) => (Returned (Ok j'), ops)
  | (Some (Err e), _, ops) => (Returned (Err e), ops)
  | (None, _, ops) => (Panicked, ops)
  end.

Definition runner_sched (os : Os) (orcs : Job -> list nat) :=
  sched job_name job_depends (job_unit os orcs) OpJob.

(** [Runner::run(&mut self, tracker)]: the result, [self.jobs] afterwards,
    the tracker after the status records are inserted, and the updates the
    scheduling loop makes to it. *)
Definition runner_run (os : Os) (orcs : Job -> list nat) (orc : list nat)
  (jobs : list Job) (m : JobTracker)
  : option (Result unit Error) * list Job * JobTracker * list Op :=
  match validate jobs jobs m with
  | (Err e, m') => (Some (Err e), jobs, m', [])
  | (Ok _, m') =>
      let (r, ops) := runner_sched os orcs (S (length jobs)) orc jobs [] [] in
      match r with
      | Some (Ok finished) => (Some (Ok tt), finished, m', ops)
      | Some (Err e) => (Some (Err e), jobs, m', ops)
      | None => (None, jobs, m', ops)
      end
  end.

(** ** Job::new and Job::depends *)

Definition job_new (name : string) : Job :=
  {| job_name := name; job_depends := []; tasks := [] |}.

(** [Job::depends(&mut self, name)]: [self.depends.push(name)] *)
Definition job_add_depends (self : Job) (name : string) : Job :=
  {| job_name := job_name self; job_depends := job_depends self ++ [name];
     tasks := tasks self |}.

(** ** Loader *)

(** What [std::fs::File::open] and [serde_yml::from_reader] do with a file:
    the open fails, the parse fails, or the file holds a job. *)
Inductive FileRead :=
| OpenFailed (e : IoError)
| ParseFailed
| Parsed (j : Job).

(** A [DirEntry] as [read_dir] yields it: [path.is_file()],
    [path.extension()] and the file behind the path. *)
Record DirEntry := {
  entry_is_file : bool;
  entry_extension : option string;
  entry_file : FileRead }.

(** [std::fs::read_dir(directory)]: an error, or the entries in the order
    the iterator yields them, each an entry or an error. *)
Definition Fs := string -> Result (list (Result DirEntry IoError)) IoError.

Record Loader := { directory : string; loader_jobs : list Job }.

Definition loader_new (directory : string) : Loader :=
  {| directory := directory; loader_jobs := [] |}.

(** [Loader::load_file]: open ([?] turns an [io::Error] into [Io]), parse
    ([?] turns a [serde_yml::Error] into [Serde]), push. *)
Definition load_file (f : FileRead) (self : Loader) : Result unit Error * Loader :=
  match f with
  | OpenFailed e => (Err (Io e), self)
  | ParseFailed => (Err Serde, self)
  | Parsed j => (Ok tt, {| directory := directory self; loader_jobs := loader_jobs self ++ [j] |})
  end.

(** The condition of [Loader::load]'s inner [if]s: a regular file whose
    extension is [yml] or [yaml]. *)
Definition yaml_file (ent : DirEntry) : bool :=
  entry_is_file ent &&
  match entry_extension ent with
  | Some ext => String.eqb ext "yml" || String.eqb ext "yaml"
  | None => false
  end.

(** The [for entry in entries] loop of [Loader::load]. *)
Fixpoint load_entries (es : list (Result DirEntry IoError)) (self : Loader)
  : Result unit Error * Loader :=
  match es with
  | [] => (Ok tt, self)
  | Err e :: _ => (Err (Io e), self)
  | Ok ent :: r =>
      if yaml_file ent then
        match load_file (entry_file ent) self with
        | (Ok _, self') => load_entries r self'
        | (Err e, self') => (Err e, self')
        end
      else load_entries r self
  end.

(** [Loader::load] *)
Definition load (fs : Fs) (self : Loader) : Result unit Error * Loader :=
  match fs (directory self) with
  | Err e => (Err (Io e), self)
  | Ok es => load_entries es self
  end.

(** [Loader::runner]: a runner holding a copy of the loaded jobs. *)
Definition runner (self : Loader) : list Job := loader_jobs self.

(** ** main *)

(** The [build_future] of [main]: [loader.load()?], then
    [loader.runner().run(tracker_clone).await?].  Returns the result, the
    tracker after the status records are inserted, and the updates of the
    run. *)
Definition build (fs : Fs) (dir : string) (os : Os) (orcs : Job -> list nat)
  (orc : list nat) (m : JobTracker) : option (Result unit Error) * JobTracker * list Op :=
  match load fs (loader_new dir) with
  | (Err e, _) => (Some (Err e), m, [])
  | (Ok _, loader) =>
      let '(r, _, m', ops) := runner_run os orcs orc (runner loader) m in (r, m', ops)
  end.

(** The [/job/:name] handler of [main]: [tracker.get(&name)]. *)
Definition get_job (m : JobTracker) (name : string) : option JobStatus := jt_get name m.

(** ** Sample inputs *)

(** A shell where [true] and [echo] succeed and [false] exits with 1. *)
Definition sh : Os := fun exe rest =>
  if String.eqb exe "false" then Spawned [] (Ok {| code := Some 1%Z |})
  else if String.eqb exe "echo" then Spawned rest (Ok {| code := Some 0%Z |})
  else if String.eqb exe "true" then Spawned [] (Ok {| code := Some 0%Z |})
  else SpawnFailed (IoErr "NotFound").

Definition mk_task (n : string) (ds : list string) (cmds : list (list string)) : Task :=
  {| task_name := n; task_depends := ds; steps := map Command cmds |}.

Definition mk_job (n : string) (ds : list string) (ts : list Task) : Job :=
  {| job_name := n; job_depends := ds; tasks := ts |}.

(** A diamond inside one job, and a run of three jobs around it. *)
Definition diamond : Job :=
  mk_job "build" []
    [mk_task "c" ["a"; "b"] [["true"]]; mk_task "a" [] [["echo"; "ok"]];
     mk_task "b" [] [["true"]]].

Definition pipeline : list Job :=
  [mk_job "deploy" ["build"; "test"] [mk_task "push" [] [["true"]]];
   diamond;
   mk_job "test" [] [mk_task "unit" [] [["true"]; ["echo"; "ok"]]]].

(** Tasks [a] and [b] depend on each other; [c] is independent. *)
Definition cyclic_job : Job :=
  mk_job "loop" []
    [mk_task "a" ["b"] [["true"]]; mk_task "b" ["a"] [["true"]];
     mk_task "c" [] [["true"]]].

Definition cyclic_jobs : list Job :=
  [mk_job "x" ["y"] [mk_task "t" [] [["true"]]];
   mk_job "y" ["x"] [mk_task "t" [] [["true"]]];
   mk_job "z" [] [mk_task "t" [] [["true"]]]].

(** Task [B] depends on [A], whose only step exits with code 1. *)
Definition failing_job : Job :=
  mk_job "ci" [] [mk_task "A" [] [["false"]]; mk_task "B" ["A"] [["true"]]].

(** Task [A] depends on a task the job does not have. *)
Definition missing_job : Job :=
  mk_job "ci" [] [mk_task "A" ["nope"] [["true"]]].

(** Job [y] depends on a job the run does not have. *)
Definition missing_jobs : list Job :=
  [mk_job "x" [] [mk_task "t" [] [["true"]]];
   mk_job "y" ["nope"] [mk_task "t" [] [["true"]]]].

(** Tasks [a] and [b] depend on each other; the independent task [c] fails. *)
Definition cyclic_failing_job : Job :=
  mk_job "loop" []
    [mk_task "a" ["b"] [["true"]]; mk_task "b" ["a"] [["true"]];
     mk_task "c" [] [["false"]]].

(** Tasks [a] and [b] depend on each other; task [c] depends on a task the
    job does not have. *)
Definition cyclic_missing_job : Job :=
  mk_job "loop" []
    [mk_task "a" ["b"] [["true"]]; mk_task "b" ["a"] [["true"]];
     mk_task "c" ["nope"] [["true"]]].

(** A directory whose second YAML file does not parse. *)
Definition broken_dir : Fs := fun _ => Ok
  [Ok {| entry_is_file := true; entry_extension := Some "yml"; entry_file := Parsed diamond |};
   Ok {| entry_is_file := true; entry_extension := Some "yaml"; entry_file := ParseFailed |};
   Ok {| entry_is_file := true; entry_extension := Some "yml"; entry_file := Parsed missing_job |}].

(** ** Concurrent tracker updates

    [tokio::spawn] may start the spawned future on another worker thread at
    once, so its updates interleave with those the spawning loop makes after
    the spawn. *)
Inductive interleaving : list Op -> list Op -> list Op -> Prop :=
| il_nil : interleaving [] [] []
| il_left a l1 l2 l : interleaving l1 l2 l -> interleaving (a :: l1) l2 (a :: l)
| il_right a l1 l2 l : interleaving l1 l2 l -> interleaving l1 (a :: l2) (a :: l).

(** What [get] reads from the tracker before the updates and after each one. *)
Fixpoint observe {A} (get : JobTracker -> A) (ops : list Op) (m : JobTracker) : list A :=
  get m :: match ops with
           | [] => []
           | op :: r => observe get r (apply_op op m)
           end.

Definition task_status (job task : string) (m : JobTracker) : option Status :=
  option_map ts_status (tt_get {| tt_job_name := job |} task m).

Definition job_status (job : string) (m : JobTracker) : option Status :=
  option_map js_status (jt_get job m).

(** A job whose only task has no steps, and a run whose only job has no
    tasks. *)
Definition stepless_job : Job := mk_job "j" [] [mk_task "t" [] []].

Definition taskless_jobs : list Job := [mk_job "j" [] []].

(** ** Properties the claims refer to *)

Definition key {N} (name : N -> string) (depends : N -> list string) (n : N)
  : string * list string := (name n, depends n).

(** Completion order respects dependencies: every dependency of the [i]-th
    node is the name of a node at an earlier position. *)
Definition topological {N} (name : N -> string) (depends : N -> list string)
  (fin : list N) : Prop :=
  forall i n d, nth_error fin i = Some n -> In d (depends n) ->
    exists j m, j < i /\ nth_error fin j = Some m /\ name m = d.

(** The dependency graph on names is acyclic: some rank decreases along
    every dependency edge. *)
Definition acyclic {N} (name : N -> string) (depends : N -> list string)
  (ns : list N) : Prop :=
  exists rank : string -> nat,
    forall n d, In n ns -> In d (depends n) -> rank d < rank (name n).

(** Every [depends] entry names a node of the collection. *)
Definition deps_present {N} (name : N -> string) (depends : N -> list string)
  (ns : list N) : Prop :=
  forall n d, In n ns -> In d (depends n) -> exists m, In m ns /\ name m = d.

(** [c] is a dependency cycle of [ns]: its [i]-th name is the name of a node
    that depends on the next name of [c] (wrapping around). *)
Definition dep_cycle {N} (name : N -> string) (depends : N -> list string)
  (ns : list N) (c : list string) : Prop :=
  2 <= length c /\
  forall i x, nth_error c i = Some x ->
    exists n, In n ns /\ name n = x /\
      In (nth (S i mod length c) c EmptyString) (depends n).

(** A given rank decreases along every dependency edge (a checkable
    certificate of [acyclic]). *)
Definition rank_decreases {N} (name : N -> string) (depends : N -> list string)
  (rank : string -> nat) (ns : list N) : bool :=
  forallb (fun n => forallb (fun d => Nat.ltb (rank d) (rank (name n))) (depends n)) ns.

(** The job a directory entry adds to [self.jobs] when [Loader::load] reads
    it without error: a regular [yml]/[yaml] file that parses. *)
Definition entry_job (r : Result DirEntry IoError) : list Job :=
  match r with
  | Ok ent =>
      if yaml_file ent then
        match entry_file ent with Parsed j => [j] | _ => [] end
      else []
  | Err _ => []
  end.

(** The tracker after [Runner::run]'s first loop has inserted the records of
    the jobs [js], in order. *)
Definition insert_all (js : list Job) (m : JobTracker) : JobTracker :=
  fold_left (fun acc j => jt_insert (job_status_of j) acc) js m.

(** * Proofs *)

(** ** List facts *)

Lemma filter_partition {A} (p : A -> bool) (l : list A) :
  Permutation l (List.filter p l ++ List.filter (fun x => negb (p x)) l).
Proof.
  induction l as [|x l IH]; simpl; [constructor|].
  destruct (p x); simpl; [constructor; exact IH|].
  apply Permutation_cons_app. exact IH.
Qed.

Lemma extract_some {A} (l : list A) i :
  i < length l -> exists x r, extract i l = Some (x, r).
Proof.
  induction l as [|y l IH] in i |- *; simpl; intros H; [lia|].
  destruct i as [|i]; [eauto|]. simpl.
  destruct (IH i) as [x [r Hx]]; [lia|]. rewrite Hx. eauto.
Qed.

Lemma extract_perm {A} (l : list A) i x r :
  extract i l = Some (x, r) -> Permutation l (x :: r).
Proof.
  induction l as [|y l IH] in i, x, r |- *; simpl; intros H; [discriminate|].
  destruct i as [|i]; simpl in H; [injection H as <- <-; reflexivity|].
  destruct (extract i l) as [[z r']|] eqn:E; [|discriminate].
  injection H as <- <-.
  eapply perm_trans; [apply perm_skip, (IH i); exact E | apply perm_swap].
Qed.

Lemma find_first_some {A} (p : A -> bool) (l : list A) x :
  find_first p l = Some x -> In x l /\ p x = true.
Proof.
  induction l as [|y l IH]; simpl; [discriminate|].
  destruct (p y) eqn:Ep; [intros H; injection H as <-; auto|].
  intros H. destruct (IH H). auto.
Qed.

Lemma find_first_none {A} (p : A -> bool) (l : list A) :
  find_first p l = None <-> forall x, In x l -> p x = false.
Proof.
  induction l as [|y l IH]; simpl; [split; [intros _ x []|reflexivity]|].
  destruct (p y) eqn:Ep; split.
  - discriminate.
  - intros H. rewrite H in Ep; [discriminate|left; reflexivity].
  - intros H x [<-|Hx]; [exact Ep|]. apply IH; auto.
  - intros H. apply IH. intros x Hx. apply H. right. exact Hx.
Qed.

Lemma min_elt {A} (f : A -> nat) (l : list A) :
  l <> [] -> exists x, In x l /\ forall y, In y l -> f x <= f y.
Proof.
  induction l as [|a l IH]; intros Hne; [congruence|].
  destruct l as [|b l].
  - exists a. split; [left; reflexivity|]. intros y [<-|[]]. lia.
  - destruct IH as [x [Hx Hmin]]; [discriminate|].
    destruct (Nat.le_gt_cases (f a) (f x)).
    + exists a. split; [left; reflexivity|].
      intros y [<-|Hy]; [lia|]. specialize (Hmin y Hy). lia.
    + exists x. split; [right; exact Hx|].
      intros y [<-|Hy]; [lia|]. auto.
Qed.

Lemma NoDup_map_inj {A B} (f : A -> B) (l : list A) x y :
  NoDup (map f l) -> In x l -> In y l -> f x = f y -> x = y.
Proof.
  induction l as [|a l IH]; simpl; intros Hnd Hx Hy Hf; [contradiction|].
  inversion Hnd as [|? ? Hnin Hnd']; subst.
  destruct Hx as [<-|Hx], Hy as [<-|Hy]; auto.
  - exfalso. apply Hnin. apply list_elem_of_In. rewrite Hf. apply in_map. exact Hy.
  - exfalso. apply Hnin. apply list_elem_of_In. rewrite <- Hf. apply in_map. exact Hx.
Qed.

(** ** The scheduling loop *)
Section SchedFacts.
Context {N : Type}.
Variable name : N -> string.
Variable depends : N -> list string.
Variable work : N -> Outcome (Result N Error) * list Op.
Variable mark : string -> Status -> Op.

Local Abbreviation loop := (sched name depends work mark).

Lemma ready_spec (ds : list string) (fin : list N) :
  ready name ds fin = true <-> forall d, In d ds -> exists m, In m fin /\ name m = d.
Proof.
  unfold ready. rewrite List.forallb_forall.
  split; intros H d Hd; specialize (H d Hd).
  - apply List.existsb_exists in H as [m [Hm Heq]].
    apply String.eqb_eq in Heq. eauto.
  - destruct H as [m [Hm Heq]]. apply List.existsb_exists.
    exists m. split; [exact Hm|]. apply String.eqb_eq. exact Heq.
Qed.

Lemma ready_app (ds : list string) (fin extra : list N) :
  ready name ds fin = true -> ready name ds (fin ++ extra) = true.
Proof.
  rewrite !ready_spec. intros H d Hd.
  destruct (H d Hd) as [m [Hm Heq]]. exists m. split; [apply in_or_app; left|]; auto.
Qed.

Lemma topological_nil : topological name depends ([] : list N).
Proof. intros i n d Hi. destruct i; discriminate. Qed.

Lemma topological_snoc (fin : list N) (n : N) :
  topological name depends fin -> ready name (depends n) fin = true ->
  topological name depends (fin ++ [n]).
Proof.
  intros Ht Hr i m d Hi Hd.
  destruct (Nat.lt_ge_cases i (length fin)) as [Hlt|Hge].
  - rewrite nth_error_app1 in Hi by exact Hlt.
    destruct (Ht i m d Hi Hd) as [j [k [Hj [Hk Hn]]]].
    exists j, k. repeat split; auto.
    rewrite nth_error_app1 by (apply nth_error_Some; congruence). exact Hk.
  - rewrite nth_error_app2 in Hi by exact Hge.
    destruct (i - length fin) as [|z] eqn:Ez; [|destruct z; discriminate].
    injection Hi as <-.
    apply ready_spec with (d := d) in Hr as [k [Hk Hn]]; [|exact Hd].
    apply In_nth_error in Hk as [j Hj].
    exists j, k. repeat split; auto.
    + assert (j < length fin) by (apply nth_error_Some; congruence). lia.
    + rewrite nth_error_app1 by (apply nth_error_Some; congruence). exact Hj.
Qed.

Lemma filter_all_false (p : N -> bool) (l : list N) :
  (forall x, In x l -> p x = false) ->
  List.filter p l = [] /\ List.filter (fun x => negb (p x)) l = l.
Proof.
  induction l as [|a l IH]; intros H; simpl; [split; reflexivity|].
  rewrite (H a (or_introl eq_refl)). simpl.
  destruct IH as [-> ->]; [intros x Hx; apply H; right; exact Hx|].
  split; reflexivity.
Qed.

(** No pending node ready and nothing in flight: the turn ends the loop. *)
Lemma sched_stuck fuel orc (pending finished : list N) :
  pending <> [] ->
  (forall n, In n pending -> ready name (depends n) finished = false) ->
  loop (S fuel) orc pending [] finished = (Some (Err CircularDependency), []).
Proof.
  intros Hne Hnr. cbn [sched]. cbv zeta.
  destruct (filter_all_false (fun n => ready name (depends n) finished) pending Hnr)
    as [HL HP].
  rewrite HL, HP. simpl.
  destruct pending; [congruence|reflexivity].
Qed.

(** Each turn either ends the loop or retires one in-flight unit. *)
Lemma sched_terminates fuel orc (pending running finished : list N) :
  length pending + length running < fuel ->
  fst (loop fuel orc pending running finished) <> None.
Proof.
  induction fuel as [|fuel IH] in orc, pending, running, finished |- *;
    intros Hlt; [lia|].
  cbn [sched]. cbv zeta.
  pose proof (Permutation_length
    (filter_partition (fun n => ready name (depends n) finished) pending)) as Hpl.
  cbv beta in Hpl. rewrite length_app in Hpl.
  remember (List.filter (fun n => ready name (depends n) finished) pending) as L eqn:EL.
  remember (List.filter (fun n => negb (ready name (depends n) finished)) pending)
    as P' eqn:EP.
  destruct (running ++ L) as [|x xs] eqn:ER.
  - destruct P'; simpl; discriminate.
  - match goal with |- context [extract ?i (x :: xs)] =>
      destruct (extract_some (x :: xs) i) as [n [rest He]];
        [apply Nat.mod_upper_bound; simpl; lia|]; rewrite He end.
    pose proof (Permutation_length (extract_perm _ _ _ _ He)) as Hlen.
    assert (Hrl : length (running ++ L) = length (x :: xs)) by (rewrite ER; reflexivity).
    rewrite length_app in Hrl.
    destruct (unit_run name work mark n) as [[[n'|e]|] ops]; try (simpl; discriminate).
    specialize (IH (tl orc) P' rest (finished ++ [n'])).
    destruct (loop fuel (tl orc) P' rest (finished ++ [n'])) as [r ops'].
    simpl in *. apply IH. lia.
Qed.

(** Acyclic, satisfiable, every unit succeeding: the loop ends with [Ok],
    the finished list in topological order and holding every node. *)
Lemma sched_complete {K} (k : N -> K) (ns : list N) fuel orc
    (pending running finished : list N) :
  (forall a b, k a = k b -> name a = name b /\ depends a = depends b) ->
  (forall n, In n ns -> exists n' ops, work n = (Returned (Ok n'), ops) /\ k n' = k n) ->
  deps_present name depends ns -> acyclic name depends ns ->
  incl pending ns -> incl running ns ->
  Permutation (map k (pending ++ running ++ finished))
              (map k ns) ->
  topological name depends finished ->
  (forall n, In n running -> ready name (depends n) finished = true) ->
  length pending + length running < fuel ->
  exists fin ops, loop fuel orc pending running finished = (Some (Ok fin), ops) /\
    topological name depends fin /\
    Permutation (map k fin) (map k ns).
Proof.
  intros Hk_inj Hwork Hdeps [rank Hrank].
  induction fuel as [|fuel IH] in orc, pending, running, finished |- *;
    intros Hp Hr Hperm Htop Hready Hlt; [lia|].
  cbn [sched]. cbv zeta.
  pose proof (filter_partition (fun n => ready name (depends n) finished) pending)
    as Hpart.
  cbv beta in Hpart.
  remember (List.filter (fun n => ready name (depends n) finished) pending) as L eqn:EL.
  remember (List.filter (fun n => negb (ready name (depends n) finished)) pending)
    as P' eqn:EP.
  pose proof (Permutation_length Hpart) as Hpl. rewrite length_app in Hpl.
  assert (HinL : forall n, In n L -> In n pending /\ ready name (depends n) finished = true).
  { intros n Hn. subst L. apply filter_In in Hn. exact Hn. }
  assert (HinP : forall n, In n P' ->
             In n pending /\ ready name (depends n) finished = false).
  { intros n Hn. subst P'. apply filter_In in Hn as [Hn Hb]. split; [exact Hn|].
    destruct (ready name (depends n) finished); [discriminate|reflexivity]. }
  destruct (running ++ L) as [|x xs] eqn:ER.
  - apply app_eq_nil in ER as [-> HL0]. rewrite HL0 in Hpl, Hpart |- *.
    destruct P' as [|p0 ps].
    + destruct pending; simpl in Hpl; [|lia].
      exists finished; eexists. split; [reflexivity|]. split; [exact Htop|]. exact Hperm.
    + exfalso.
      destruct (min_elt (fun n => rank (name n)) (p0 :: ps)) as [x0 [Hx0 Hmin]];
        [discriminate|].
      destruct (HinP x0 Hx0) as [Hx0p Hnr].
      assert (Hx0ns : In x0 ns) by (apply Hp; exact Hx0p).
      rewrite <- Bool.not_true_iff_false in Hnr. apply Hnr.
      apply ready_spec. intros d Hd.
      destruct (Hdeps x0 d Hx0ns Hd) as [m [Hm Hmd]].
      assert (Hk : In (k m) (map k (pending ++ [] ++ finished))).
      { eapply Permutation_in; [symmetry; exact Hperm|]. apply in_map. exact Hm. }
      apply in_map_iff in Hk as [m' [Hkm Hm']].
      destruct (Hk_inj _ _ Hkm) as [Hname _].
      simpl in Hm'. apply in_app_or in Hm' as [Hm'|Hm'].
      * apply (Permutation_in _ Hpart) in Hm'. simpl in Hm'.
        specialize (Hmin m' Hm'). specialize (Hrank x0 d Hx0ns Hd).
        simpl in Hmin. rewrite Hname, Hmd in Hmin. lia.
      * exists m'. split; [exact Hm'|]. congruence.
  - match goal with |- context [extract ?i (x :: xs)] =>
      destruct (extract_some (x :: xs) i) as [n [rest He]];
        [apply Nat.mod_upper_bound; simpl; lia|]; rewrite He end.
    pose proof (extract_perm _ _ _ _ He) as Hnr. rewrite <- ER in Hnr.
    assert (Hrun : forall y, In y (running ++ L) ->
               In y ns /\ ready name (depends y) finished = true).
    { intros y Hy. apply in_app_or in Hy as [Hy|Hy].
      - split; [apply Hr; exact Hy|]. apply Hready. exact Hy.
      - destruct (HinL y Hy) as [Hy1 Hy2]. split; [apply Hp; exact Hy1|exact Hy2]. }
    assert (Hrest : forall y, In y rest -> In y (running ++ L)).
    { intros y Hy. apply (Permutation_in _ (Permutation_sym Hnr)). right. exact Hy. }
    destruct (Hrun n) as [Hn_ns Hn_ready].
    { apply (Permutation_in _ (Permutation_sym Hnr)). left. reflexivity. }
    destruct (Hwork n Hn_ns) as [n' [ops0 [Hw Hk]]].
    unfold unit_run. rewrite Hw. cbv beta iota.
    destruct (IH (tl orc) P' rest (finished ++ [n'])) as [fin [ops' [Hs [Hft Hfp]]]].
    + intros y Hy. apply Hp. apply (HinP y Hy).
    + intros y Hy. apply (Hrun y (Hrest y Hy)).
    + rewrite <- Hperm. rewrite !map_app. simpl. rewrite Hk.
      assert (HpK : Permutation (map k pending)
                      (map k L ++ map (k) P'))
        by (rewrite <- map_app; apply Permutation_map; exact Hpart).
      pose proof (Permutation_map k Hnr) as HnrK.
      rewrite map_app in HnrK. simpl in HnrK.
      rewrite HpK.
      transitivity (map k P' ++
                    (k n :: map (k) rest) ++
                    map (k) finished); [solve_Permutation|].
      rewrite <- HnrK. solve_Permutation.
    + apply topological_snoc; [exact Htop|].
      destruct (Hk_inj _ _ Hk) as [_ Hd]. rewrite Hd. exact Hn_ready.
    + intros y Hy. apply ready_app. apply (Hrun y (Hrest y Hy)).
    + pose proof (Permutation_length Hnr) as Hl. rewrite length_app in Hl.
      simpl in Hl. lia.
    + rewrite Hs. exists fin; eexists. split; [reflexivity|]. split; assumption.
Qed.

Lemma unit_run_ok (n n' : N) ops :
  unit_run name work mark n = (Returned (Ok n'), ops) ->
  exists ops0, work n = (Returned (Ok n'), ops0).
Proof.
  unfold unit_run. destruct (work n) as [[[m|e]|] ops0]; intros H; inversion H; eauto.
Qed.

Lemma unit_run_ops (n : N) o ops op :
  unit_run name work mark n = (o, ops) -> In op ops ->
  (exists o0 ops0, work n = (o0, ops0) /\ In op ops0) \/
  (exists st, op = mark (name n) st /\ st <> Running).
Proof.
  unfold unit_run. destruct (work n) as [o0 ops0] eqn:Hw.
  intros H Hop.
  destruct o0 as [[m|e]|]; injection H as <- <-.
  - apply in_app_or in Hop as [Hop|[<-|[]]];
      [left; eauto|right; eexists; split; [reflexivity|discriminate]].
  - apply in_app_or in Hop as [Hop|[<-|[]]];
      [left; eauto|right; eexists; split; [reflexivity|discriminate]].
  - left; eauto.
Qed.

(** With every unit succeeding, the only error the loop returns is the
    circular-dependency one. *)
Lemma sched_errors (ns : list N) fuel orc (pending running finished : list N) e :
  (forall n, In n ns -> exists n' ops, work n = (Returned (Ok n'), ops)) ->
  incl pending ns -> incl running ns ->
  fst (loop fuel orc pending running finished) = Some (Err e) -> e = CircularDependency.
Proof.
  intros Hwork.
  induction fuel as [|fuel IH] in orc, pending, running, finished |- *;
    intros Hp Hr; [discriminate|].
  cbn [sched]. cbv zeta.
  pose proof (filter_partition (fun n => ready name (depends n) finished) pending)
    as Hpart.
  cbv beta in Hpart.
  remember (List.filter (fun n => ready name (depends n) finished) pending) as L eqn:EL.
  remember (List.filter (fun n => negb (ready name (depends n) finished)) pending)
    as P' eqn:EP.
  destruct (running ++ L) as [|x xs] eqn:ER.
  - destruct P'; simpl; congruence.
  - match goal with |- context [extract ?i (x :: xs)] =>
      destruct (extract_some (x :: xs) i) as [n [rest He]];
        [apply Nat.mod_upper_bound; simpl; lia|]; rewrite He end.
    pose proof (extract_perm _ _ _ _ He) as Hnr. rewrite <- ER in Hnr.
    assert (Hsub : forall y, In y (running ++ L) -> In y ns).
    { intros y Hy. apply in_app_or in Hy as [Hy|Hy]; [apply Hr; exact Hy|].
      apply Hp. subst L. apply filter_In in Hy. apply Hy. }
    assert (Hn : In n ns).
    { apply Hsub, (Permutation_in _ (Permutation_sym Hnr)). left. reflexivity. }
    destruct (Hwork n Hn) as [n' [ops0 Hw]].
    unfold unit_run. rewrite Hw. cbv beta iota.
    specialize (IH (tl orc) P' rest (finished ++ [n'])).
    destruct (loop fuel (tl orc) P' rest (finished ++ [n'])) as [r ops'].
    simpl. apply IH.
    + intros y Hy. apply Hp. subst P'. apply filter_In in Hy. apply Hy.
    + intros y Hy. apply Hsub, (Permutation_in _ (Permutation_sym Hnr)). right. exact Hy.
Qed.

(** Around a dependency cycle (names unique): no node of the cycle is ever
    marked Running, and the loop never returns [Ok]. *)
Lemma sched_cycle (ns : list N) (c : list string) fuel orc
    (pending running finished : list N) :
  NoDup (map name ns) -> dep_cycle name depends ns c ->
  (forall n n' ops, work n = (Returned (Ok n'), ops) -> name n' = name n) ->
  (forall n o ops x, work n = (o, ops) -> ~ In (mark x Running) ops) ->
  (forall x y s t, mark x s = mark y t -> x = y /\ s = t) ->
  incl pending ns -> incl running ns ->
  (forall n, In n (running ++ finished) -> ~ In (name n) c) ->
  (forall n, In n ns -> In (name n) c -> In n pending) ->
  (forall x op, In x c -> In op (snd (loop fuel orc pending running finished)) ->
     op <> mark x Running) /\
  (forall fin, fst (loop fuel orc pending running finished) <> Some (Ok fin)).
Proof.
  intros Hnd [Hlen Hcyc] Hname Hnomark Hinj.
  induction fuel as [|fuel IH] in orc, pending, running, finished |- *;
    intros Hp Hr Hout Hin; [split; [intros x op _ []|discriminate]|].
  (* a pending node named in the cycle is not ready *)
  assert (Hnotc : forall n, In n pending -> ready name (depends n) finished = true ->
                    ~ In (name n) c).
  { intros n Hn Hrd Hc. apply In_nth_error in Hc as [i Hi].
    destruct (Hcyc i _ Hi) as [n0 [Hn0 [Hn0name Hdep]]].
    assert (n = n0) as <- by (eapply NoDup_map_inj; eauto).
    rewrite ready_spec in Hrd. destruct (Hrd _ Hdep) as [m [Hm Hmname]].
    apply (Hout m); [apply in_or_app; right; exact Hm|].
    rewrite Hmname. apply nth_In. apply Nat.mod_upper_bound. lia. }
  cbn [sched]. cbv zeta.
  pose proof (filter_partition (fun n => ready name (depends n) finished) pending)
    as Hpart.
  cbv beta in Hpart.
  remember (List.filter (fun n => ready name (depends n) finished) pending) as L eqn:EL.
  remember (List.filter (fun n => negb (ready name (depends n) finished)) pending)
    as P' eqn:EP.
  assert (HinL : forall n, In n L -> In n pending /\ ~ In (name n) c).
  { intros n Hn. subst L. apply filter_In in Hn as [Hn Hrd].
    split; [exact Hn|]. exact (Hnotc n Hn Hrd). }
  assert (Hmarks : forall x op, In x c ->
             In op (map (fun n => mark (name n) Running) L) -> op <> mark x Running).
  { intros x op Hx Hop ->. apply in_map_iff in Hop as [y [Hy HyL]].
    destruct (Hinj _ _ _ _ Hy) as [Hxy _]. apply (proj2 (HinL y HyL)). congruence. }
  destruct (running ++ L) as [|x xs] eqn:ER.
  - apply app_eq_nil in ER as [-> HL0].
    destruct (Hcyc 0 (nth 0 c EmptyString)) as [n0 [Hn0 [Hn0name _]]].
    { apply nth_error_nth'. lia. }
    assert (Hn0P : In n0 P').
    { assert (Hc0 : In (name n0) c) by (rewrite Hn0name; apply nth_In; lia).
      pose proof (Hin n0 Hn0 Hc0) as Hn0p.
      apply (Permutation_in _ Hpart) in Hn0p. rewrite HL0 in Hn0p. exact Hn0p. }
    destruct P' as [|p0 ps]; [contradiction|]. simpl.
    split; [|discriminate]. intros x op Hx Hop. rewrite HL0 in Hop. contradiction.
  - match goal with |- context [extract ?i (x :: xs)] =>
      destruct (extract_some (x :: xs) i) as [n [rest He]];
        [apply Nat.mod_upper_bound; simpl; lia|]; rewrite He end.
    pose proof (extract_perm _ _ _ _ He) as Hnr. rewrite <- ER in Hnr.
    assert (Hrun : forall y, In y (running ++ L) -> In y ns /\ ~ In (name y) c).
    { intros y Hy. apply in_app_or in Hy as [Hy|Hy].
      - split; [apply Hr; exact Hy|]. apply Hout. apply in_or_app. left. exact Hy.
      - destruct (HinL y Hy) as [Hy1 Hy2]. split; [apply Hp; exact Hy1|exact Hy2]. }
    assert (Hrest : forall y, In y rest -> In y (running ++ L)).
    { intros y Hy. apply (Permutation_in _ (Permutation_sym Hnr)). right. exact Hy. }
    destruct (Hrun n) as [Hn_ns Hn_c].
    { apply (Permutation_in _ (Permutation_sym Hnr)). left. reflexivity. }
    assert (Hunit : forall o uops x1 op, unit_run name work mark n = (o, uops) ->
                      In x1 c -> In op uops -> op <> mark x1 Running).
    { intros o uops x1 op Hu Hx Hop ->.
      destruct (unit_run_ops n o uops _ Hu Hop) as [[o0 [ops0 [Hw Hin0]]]|[st [Hst Hne]]].
      - exact (Hnomark n o0 ops0 x1 Hw Hin0).
      - destruct (Hinj _ _ _ _ Hst) as [_ Hs]. congruence. }
    destruct (unit_run name work mark n) as [o uops] eqn:EU.
    destruct o as [[n'|e]|].
    + destruct (unit_run_ok n n' uops EU) as [ops0 Hw].
      destruct (IH (tl orc) P' rest (finished ++ [n'])) as [IHops IHres].
      * intros y Hy. apply Hp. subst P'. apply filter_In in Hy. apply Hy.
      * intros y Hy. apply (Hrun y (Hrest y Hy)).
      * intros y Hy. apply in_app_or in Hy as [Hy|Hy].
        -- apply (Hrun y (Hrest y Hy)).
        -- apply in_app_or in Hy as [Hy|[<-|[]]].
           ++ apply Hout. apply in_or_app. right. exact Hy.
           ++ rewrite (Hname n n' ops0 Hw). exact Hn_c.
      * intros y Hy Hyc. subst P'. apply filter_In. split; [apply Hin; assumption|].
        destruct (ready name (depends y) finished) eqn:Hrd; [|reflexivity].
        exfalso. exact (Hnotc y (Hin y Hy Hyc) Hrd Hyc).
      * destruct (loop fuel (tl orc) P' rest (finished ++ [n'])) as [r ops'].
        simpl in *. split; [|exact IHres].
        intros x0 op Hx0 Hop. apply in_app_or in Hop as [Hop|Hop]; [eauto|].
        apply in_app_or in Hop as [Hop|Hop]; eauto.
    + simpl. split; [|discriminate].
      intros x0 op Hx0 Hop. apply in_app_or in Hop as [Hop|Hop]; eauto.
    + simpl. split; [|discriminate].
      intros x0 op Hx0 Hop. apply in_app_or in Hop as [Hop|Hop]; eauto.
Qed.

(** Every tracker update of the loop is a status mark at this level or an
    update made by a unit of work. *)
Lemma sched_ops fuel orc (pending running finished : list N) op :
  In op (snd (loop fuel orc pending running finished)) ->
  (exists x st, op = mark x st) \/ (exists n o ops, work n = (o, ops) /\ In op ops).
Proof.
  induction fuel as [|fuel IH] in orc, pending, running, finished |- *;
    [intros []|].
  cbn [sched]. cbv zeta.
  remember (List.filter (fun n => ready name (depends n) finished) pending) as L eqn:EL.
  remember (List.filter (fun n => negb (ready name (depends n) finished)) pending)
    as P' eqn:EP.
  assert (Hm : In op (map (fun n => mark (name n) Running) L) ->
               exists x st, op = mark x st).
  { intros Hop. apply in_map_iff in Hop as [y [<- _]]. eauto. }
  destruct (running ++ L) as [|x xs] eqn:ER.
  - destruct P'; simpl; intros Hop; left; exact (Hm Hop).
  - match goal with |- context [extract ?i (x :: xs)] =>
      destruct (extract i (x :: xs)) as [[n rest]|] end;
      [|intros Hop; left; exact (Hm Hop)].
    destruct (unit_run name work mark n) as [o uops] eqn:EU.
    assert (Hu : In op uops ->
                 (exists x st, op = mark x st) \/
                 (exists n o ops, work n = (o, ops) /\ In op ops)).
    { intros Hop. destruct (unit_run_ops n o uops op EU Hop)
        as [[o0 [ops0 [Hw Hin]]]|[st [-> _]]];
        [right; exists n, o0, ops0; auto|left; eauto]. }
    destruct o as [[n'|e]|].
    + specialize (IH (tl orc) P' rest (finished ++ [n'])).
      destruct (loop fuel (tl orc) P' rest (finished ++ [n'])) as [r ops'].
      simpl. intros Hop. apply in_app_or in Hop as [Hop|Hop]; [left; auto|].
      apply in_app_or in Hop as [Hop|Hop]; auto.
    + simpl. intros Hop. apply in_app_or in Hop as [Hop|Hop]; [left|]; auto.
    + simpl. intros Hop. apply in_app_or in Hop as [Hop|Hop]; [left|]; auto.
Qed.

Lemma present_spec (all : list N) (d : string) :
  existsb (fun m => String.eqb (name m) d) all = true <-> exists m, In m all /\ name m = d.
Proof.
  rewrite List.existsb_exists. split; intros [m [Hm Heq]]; exists m;
    (split; [exact Hm|]); [apply String.eqb_eq|apply String.eqb_eq]; exact Heq.
Qed.

Lemma first_missing_some (all ns : list N) d :
  first_missing_in name depends all ns = Some d ->
  exists n, In n ns /\ In d (depends n) /\ forall m, In m all -> name m <> d.
Proof.
  induction ns as [|n ns IH]; simpl; [discriminate|].
  destruct (find_first _ (depends n)) as [d'|] eqn:Ef.
  - intros H. injection H as <-.
    destruct (find_first_some _ _ _ Ef) as [Hin Hp].
    exists n. split; [left; reflexivity|]. split; [exact Hin|].
    intros m Hm Hmd. apply Bool.negb_true_iff in Hp.
    rewrite <- Bool.not_true_iff_false in Hp. apply Hp, present_spec. eauto.
  - intros H. destruct (IH H) as [n' [? ?]]. exists n'. split; [right|]; auto.
Qed.

Lemma first_missing_none (all ns : list N) :
  (forall n d, In n ns -> In d (depends n) -> exists m, In m all /\ name m = d) ->
  first_missing_in name depends all ns = None.
Proof.
  induction ns as [|n ns IH]; simpl; intros H; [reflexivity|].
  rewrite (proj2 (find_first_none _ _)).
  { apply IH. intros n' d Hn' Hd. apply (H n' d); [right|]; assumption. }
  intros d Hd. apply Bool.negb_false_iff. apply present_spec.
  apply (H n d); [left; reflexivity|exact Hd].
Qed.

Lemma first_missing_present (all ns : list N) :
  first_missing_in name depends all ns = None ->
  forall n d, In n ns -> In d (depends n) -> exists m, In m all /\ name m = d.
Proof.
  induction ns as [|n ns IH]; simpl; [intros _ n d []|].
  destruct (find_first _ (depends n)) as [d'|] eqn:Ef; [discriminate|].
  intros H n' d [<-|Hn'] Hd; [|exact (IH H n' d Hn' Hd)].
  rewrite find_first_none in Ef. specialize (Ef d Hd).
  apply Bool.negb_false_iff in Ef. apply present_spec. exact Ef.
Qed.

(** Where an error of the loop comes from: the stuck state, a panicked unit,
    or a unit's own error, passed on as it is. *)
Lemma sched_err_source fuel orc (pending running finished : list N) e :
  fst (loop fuel orc pending running finished) = Some (Err e) ->
  e = CircularDependency \/ e = Join \/ exists n ops, work n = (Returned (Err e), ops).
Proof.
  induction fuel as [|fuel IH] in orc, pending, running, finished |- *;
    [intros H; inversion H|].
  cbn [sched]. cbv zeta.
  remember (List.filter (fun n => ready name (depends n) finished) pending) as L eqn:EL.
  remember (List.filter (fun n => negb (ready name (depends n) finished)) pending)
    as P' eqn:EP.
  destruct (running ++ L) as [|x xs].
  - destruct P'; simpl; intros H; inversion H; auto.
  - destruct (extract (hd 0 orc mod length (x :: xs)) (x :: xs)) as [[n rest]|];
      [|intros H; inversion H].
    unfold unit_run. destruct (work n) as [[[n'|e']|] ops] eqn:Hw.
    + specialize (IH (tl orc) P' rest (finished ++ [n'])).
      destruct (loop fuel (tl orc) P' rest (finished ++ [n'])) as [r ops'].
      exact IH.
    + simpl. intros H; inversion H; subst. right; right; eauto.
    + simpl. intros H; inversion H; auto.
Qed.

Lemma rank_decreases_acyclic rank (ns : list N) :
  rank_decreases name depends rank ns = true -> acyclic name depends ns.
Proof.
  unfold rank_decreases. rewrite List.forallb_forall. intros H.
  exists rank. intros n d Hn Hd. specialize (H n Hn).
  rewrite List.forallb_forall in H. apply Nat.ltb_lt. exact (H d Hd).
Qed.
End SchedFacts.

(** ** Steps and tasks *)

Lemma step_run_ops (os : Os) (s : Step) (i : nat) (tr : StepTracker) op :
  In op (snd (step_run os s i tr)) ->
  (exists st, op = step_op tr i st) \/ (exists l, op = log_op tr i l).
Proof.
  destruct s as [args]. unfold step_run.
  destruct (nth_error args 0) as [exe|]; [|intros [<-|[]]; left; eauto].
  destruct (slice_from 1 args) as [rest|]; [|intros [<-|[]]; left; eauto].
  destruct (os exe rest) as [e|lines w]; [intros [<-|[]]; left; eauto|].
  assert (Hl : In op (map (log_op tr i) lines) -> exists l, op = log_op tr i l).
  { intros H. apply in_map_iff in H as [l [<- _]]. eauto. }
  destruct w as [st|e]; [destruct (success st)|]; simpl;
    intros [<-|H]; try (left; eauto; fail);
    try (apply in_app_or in H as [H|[<-|[]]]); auto; left; eauto.
Qed.

Lemma steps_run_ops (os : Os) (ss : list Step) (b : nat) (tr : StepTracker) op :
  In op (snd (steps_run os ss b tr)) ->
  exists i, (exists st, op = step_op tr i st) \/ (exists l, op = log_op tr i l).
Proof.
  induction ss as [|s ss IH] in b |- *; simpl; [intros []|].
  destruct (step_run os s b tr) as [o ops] eqn:E.
  assert (Hs : In op ops -> exists i, (exists st, op = step_op tr i st) \/
                                      (exists l, op = log_op tr i l)).
  { intros H. exists b. apply (step_run_ops os s b tr). rewrite E. exact H. }
  destruct o as [[[]|e]|]; simpl; auto.
  specialize (IH (S b)).
  destruct (steps_run os ss (S b) tr) as [o' ops']. simpl in *.
  intros H. apply in_app_or in H as [H|H]; auto.
Qed.

Lemma task_unit_ops (os : Os) (jn : string) (t : Task) op :
  In op (snd (task_unit os jn t)) ->
  (forall x st, op <> OpJob x st) /\ (forall j x st, op <> OpTask j x st).
Proof.
  unfold task_unit, task_run. intros H.
  destruct (steps_run os (steps t) 0 (step_tracker jn (task_name t))) as [o ops] eqn:E.
  assert (Hin : In op (snd (steps_run os (steps t) 0 (step_tracker jn (task_name t)))))
    by (rewrite E; exact H).
  apply steps_run_ops in Hin as [i [[st ->]|[l ->]]];
    split; intros; discriminate.
Qed.

Lemma task_unit_ok (os : Os) (jn : string) (t t' : Task) ops :
  task_unit os jn t = (Returned (Ok t'), ops) -> t' = t.
Proof.
  unfold task_unit. destruct (task_run os t _) as [[[[]|e]|] ops0]; intros H;
    inversion H; reflexivity.
Qed.

Lemma task_unit_of_run (os : Os) (jn : string) (t : Task) :
  fst (task_run os t (step_tracker jn (task_name t))) = Returned (Ok tt) ->
  exists ops, task_unit os jn t = (Returned (Ok t), ops).
Proof.
  unfold task_unit. destruct (task_run os t _) as [o ops0]. simpl. intros ->. eauto.
Qed.

Lemma step_run_err (os : Os) (s : Step) (i : nat) (tr : StepTracker) e :
  fst (step_run os s i tr) = Returned (Err e) ->
  (exists io, e = Io io) \/ (exists st, e = Exit st).
Proof.
  destruct s as [args]. unfold step_run.
  destruct (nth_error args 0) as [exe|]; [|simpl; intros H; inversion H].
  destruct (slice_from 1 args) as [rest|]; [|simpl; intros H; inversion H].
  destruct (os exe rest) as [io|lines w]; [simpl; intros H; inversion H; eauto|].
  destruct w as [st|io]; [destruct (success st)|]; simpl; intros H; inversion H; eauto.
Qed.

Lemma steps_run_err (os : Os) (ss : list Step) (b : nat) (tr : StepTracker) e :
  fst (steps_run os ss b tr) = Returned (Err e) ->
  (exists io, e = Io io) \/ (exists st, e = Exit st).
Proof.
  induction ss as [|s ss IH] in b |- *; simpl; [intros H; inversion H|].
  pose proof (step_run_err os s b tr e) as Hs.
  destruct (step_run os s b tr) as [o ops]. simpl in Hs.
  destruct o as [[[]|e']|].
  - specialize (IH (S b)). destruct (steps_run os ss (S b) tr). exact IH.
  - simpl. intros H; inversion H; subst. apply Hs. reflexivity.
  - simpl. intros H; inversion H.
Qed.

(** ** Job::run *)

Lemma job_run_terminates (os : Os) (orc : list nat) (self : Job) :
  fst (fst (job_run os orc self)) <> None.
Proof.
  unfold job_run. destruct (first_missing _ _ _); [discriminate|].
  pose proof (sched_terminates task_name task_depends (task_unit os (job_name self))
    (fun n st => OpTask (job_name self) n st) (S (length (tasks self))) orc
    (tasks self) [] [] ltac:(simpl; lia)) as H.
  unfold job_sched. destruct (sched _ _ _ _ _ _ _ _ _) as [[[fin|e]|] ops];
    simpl in *; congruence.
Qed.

Lemma job_run_keeps_key (os : Os) (orc : list nat) (self : Job) :
  job_name (snd (fst (job_run os orc self))) = job_name self /\
  job_depends (snd (fst (job_run os orc self))) = job_depends self.
Proof.
  unfold job_run. destruct (first_missing _ _ _); [auto|].
  unfold job_sched. destruct (sched _ _ _ _ _ _ _ _ _) as [[[fin|e]|] ops]; simpl; auto.
Qed.

Lemma job_run_ops (os : Os) (orc : list nat) (self : Job) op :
  In op (snd (job_run os orc self)) -> forall x st, op <> OpJob x st.
Proof.
  unfold job_run. destruct (first_missing _ _ _); [intros []|].
  unfold job_sched.
  destruct (sched _ _ _ _ _ _ _ _ _) as [r ops] eqn:E.
  intros Hop x st ->.
  assert (Hin : In (OpJob x st) (snd (sched task_name task_depends
      (task_unit os (job_name self)) (fun n st => OpTask (job_name self) n st)
      (S (length (tasks self))) orc (tasks self) [] [])))
    by (rewrite E; destruct r as [[fin|e]|]; exact Hop).
  apply sched_ops in Hin as [[y [s' Hy]]|[n [o [ops0 [Hw Hin]]]]]; [discriminate|].
  apply (proj1 (task_unit_ops os (job_name self) n (OpJob x st)
    ltac:(rewrite Hw; exact Hin)) x st). reflexivity.
Qed.

Lemma job_run_complete (os : Os) (orc : list nat) (self : Job) :
  deps_present task_name task_depends (tasks self) ->
  acyclic task_name task_depends (tasks self) ->
  (forall t, In t (tasks self) ->
     fst (task_run os t (step_tracker (job_name self) (task_name t))) = Returned (Ok tt)) ->
  exists fin ops, job_run os orc self = (Some (Ok tt), with_tasks self fin, ops) /\
    topological task_name task_depends fin /\ Permutation fin (tasks self).
Proof.
  intros Hd Ha Hs. unfold job_run, first_missing.
  rewrite first_missing_none by exact Hd.
  destruct (sched_complete task_name task_depends (task_unit os (job_name self))
    (fun n st => OpTask (job_name self) n st) (fun t => t) (tasks self)
    (S (length (tasks self))) orc (tasks self) [] [])
    as [fin [ops [Hsched [Ht Hp]]]].
  - intros a b ->. auto.
  - intros t Ht. destruct (task_unit_of_run os (job_name self) t (Hs t Ht)) as [ops Hu].
    eauto.
  - exact Hd.
  - exact Ha.
  - apply incl_refl.
  - intros y [].
  - rewrite !app_nil_r. reflexivity.
  - apply topological_nil.
  - intros y [].
  - simpl. lia.
  - unfold job_sched. rewrite Hsched. exists fin, ops. rewrite !map_id in Hp. auto.
Qed.

(** The errors [Job::run] can return. *)
Lemma job_run_err (os : Os) (orc : list nat) (self : Job) e :
  fst (fst (job_run os orc self)) = Some (Err e) ->
  (exists d, e = MissingDependency d) \/ e = CircularDependency \/ e = Join \/
  (exists io, e = Io io) \/ (exists st, e = Exit st).
Proof.
  unfold job_run. destruct (first_missing _ _ _) as [d|].
  { simpl. intros H; inversion H; eauto. }
  unfold job_sched.
  pose proof (sched_err_source task_name task_depends (task_unit os (job_name self))
    (fun n st => OpTask (job_name self) n st) (S (length (tasks self))) orc
    (tasks self) [] [] e) as Hs.
  revert Hs. destruct (sched _ _ _ _ _ _ _ _ _) as [[[fin|e']|] ops];
    simpl; intros Hs H; inversion H; subst.
  destruct (Hs eq_refl) as [->|[->|[t [ops0 Hw]]]]; auto.
  unfold task_unit in Hw.
  pose proof (steps_run_err os (steps t) 0 (step_tracker (job_name self) (task_name t)) e)
    as Ht.
  unfold task_run in Hw.
  destruct (steps_run os (steps t) 0 _) as [[[[]|e'']|] ops1];
    inversion Hw; subst. right; right; right. apply Ht. reflexivity.
Qed.

(** ** Runner::run *)

Lemma validate_ok (all js : list Job) (m : JobTracker) :
  (forall j d, In j js -> In d (job_depends j) -> exists u, In u all /\ job_name u = d) ->
  exists m', validate all js m = (Ok tt, m').
Proof.
  induction js as [|j js IH] in m |- *; simpl; intros H; [eauto|].
  rewrite (proj2 (find_first_none _ _)).
  - apply IH. intros j' d Hj Hd. apply (H j' d); [right|]; assumption.
  - intros d Hd. apply Bool.negb_false_iff. apply (present_spec job_name).
    apply (H j d); [left; reflexivity|exact Hd].
Qed.

Lemma validate_err (all js : list Job) (m : JobTracker) e m' :
  validate all js m = (Err e, m') ->
  exists j d, In j js /\ In d (job_depends j) /\
    (forall u, In u all -> job_name u <> d) /\ e = MissingDependency d.
Proof.
  induction js as [|j js IH] in m |- *; simpl; [discriminate|].
  destruct (find_first _ (job_depends j)) as [d|] eqn:Ef.
  - intros H. injection H as <- <-.
    destruct (find_first_some _ _ _ Ef) as [Hin Hp].
    exists j, d. split; [left; reflexivity|]. split; [exact Hin|]. split; [|reflexivity].
    intros u Hu Hud. apply Bool.negb_true_iff in Hp.
    rewrite <- Bool.not_true_iff_false in Hp. apply Hp.
    apply (present_spec job_name). eauto.
  - intros H. destruct (IH _ H) as [j' [d [Hj [Hd [Hu He]]]]].
    exists j', d. split; [right|]; auto.
Qed.

Lemma validate_missing (all js : list Job) (m : JobTracker) :
  (exists j d, In j js /\ In d (job_depends j) /\ forall u, In u all -> job_name u <> d) ->
  exists e m', validate all js m = (Err e, m').
Proof.
  induction js as [|j js IH] in m |- *; simpl; intros [j0 [d [Hj [Hd Hu]]]];
    [contradiction|].
  destruct (find_first _ (job_depends j)) as [d'|] eqn:Ef; [eauto|].
  apply IH. destruct Hj as [<-|Hj]; [|exists j0, d; auto].
  exfalso. rewrite find_first_none in Ef. specialize (Ef d Hd).
  apply Bool.negb_false_iff in Ef. apply (present_spec job_name) in Ef as [u [Hu' Hud]].
  exact (Hu u Hu' Hud).
Qed.

Lemma job_unit_ok (os : Os) (orcs : Job -> list nat) (j j' : Job) ops :
  job_unit os orcs j = (Returned (Ok j'), ops) ->
  key job_name job_depends j' = key job_name job_depends j.
Proof.
  unfold job_unit. pose proof (job_run_keeps_key os (orcs j) j) as [Hn Hd].
  destruct (job_run os (orcs j) j) as [[[[[]|e]|] j''] ops0]; simpl in *;
    intros H; inversion H; subst. unfold key. congruence.
Qed.

Lemma job_unit_of_run (os : Os) (orcs : Job -> list nat) (j : Job) :
  fst (fst (job_run os (orcs j) j)) = Some (Ok tt) ->
  exists j' ops, job_unit os orcs j = (Returned (Ok j'), ops) /\
    key job_name job_depends j' = key job_name job_depends j.
Proof.
  intros H. unfold job_unit.
  destruct (job_run os (orcs j) j) as [[r j'] ops0] eqn:E. simpl in H. subst r.
  exists j', ops0. split; [reflexivity|].
  apply (job_unit_ok os orcs j j' ops0). unfold job_unit. rewrite E. reflexivity.
Qed.

Lemma job_unit_ops (os : Os) (orcs : Job -> list nat) (j : Job) op :
  In op (snd (job_unit os orcs j)) -> forall x st, op <> OpJob x st.
Proof.
  unfold job_unit. intros H. apply (job_run_ops os (orcs j) j).
  destruct (job_run os (orcs j) j) as [[[[[]|e]|] j'] ops0]; exact H.
Qed.

Lemma runner_run_complete (os : Os) (orcs : Job -> list nat) (orc : list nat)
    (jobs : list Job) (m : JobTracker) :
  deps_present job_name job_depends jobs -> acyclic job_name job_depends jobs ->
  (forall j, In j jobs -> fst (fst (job_run os (orcs j) j)) = Some (Ok tt)) ->
  exists fin m' ops, runner_run os orcs orc jobs m = (Some (Ok tt), fin, m', ops) /\
    topological job_name job_depends fin /\
    Permutation (map (key job_name job_depends) fin) (map (key job_name job_depends) jobs).
Proof.
  intros Hd Ha Hs. unfold runner_run.
  destruct (validate_ok jobs jobs m Hd) as [m' ->].
  destruct (sched_complete job_name job_depends (job_unit os orcs) OpJob
    (key job_name job_depends) jobs (S (length jobs)) orc jobs [] [])
    as [fin [ops [Hsched [Ht Hp]]]].
  - intros a b Hab. unfold key in Hab. injection Hab. auto.
  - intros j Hj. destruct (job_unit_of_run os orcs j (Hs j Hj)) as [j' [ops [Hu Hk]]].
    eauto.
  - exact Hd.
  - exact Ha.
  - apply incl_refl.
  - intros y [].
  - rewrite !app_nil_r. reflexivity.
  - apply topological_nil.
  - intros y [].
  - simpl. lia.
  - unfold runner_sched. rewrite Hsched. exists fin, m', ops. auto.
Qed.

(** The errors [Runner::run] can return. *)
Lemma runner_run_err (os : Os) (orcs : Job -> list nat) (orc : list nat)
    (jobs : list Job) (m : JobTracker) e :
  fst (fst (fst (runner_run os orcs orc jobs m))) = Some (Err e) ->
  (exists d, e = MissingDependency d) \/ e = CircularDependency \/ e = Join \/
  (exists io, e = Io io) \/ (exists st, e = Exit st).
Proof.
  unfold runner_run. destruct (validate jobs jobs m) as [[u|e'] m'] eqn:Ev.
  2:{ simpl. intros H; inversion H; subst.
      destruct (validate_err _ _ _ _ _ Ev) as [j [d [_ [_ [_ ->]]]]]. eauto. }
  unfold runner_sched.
  pose proof (sched_err_source job_name job_depends (job_unit os orcs) OpJob
    (S (length jobs)) orc jobs [] [] e) as Hs.
  revert Hs. destruct (sched _ _ _ _ _ _ _ _ _) as [[[fin|e']|] ops];
    simpl; intros Hs H; inversion H; subst.
  destruct (Hs eq_refl) as [->|[->|[j [ops0 Hw]]]]; auto.
  unfold job_unit in Hw. pose proof (job_run_err os (orcs j) j e) as Hj.
  destruct (job_run os (orcs j) j) as [[[[[]|e'']|] j'] ops1]; inversion Hw; subst.
  apply Hj. reflexivity.
Qed.

(** ** The tracker *)

Lemma find_first_modify_first {A} (p : A -> bool) (f : A -> A) (l : list A) :
  (forall x, p (f x) = p x) ->
  find_first p (modify_first p f l) = option_map f (find_first p l).
Proof.
  intros Hf. induction l as [|x l IH]; simpl; [reflexivity|].
  destruct (p x) eqn:E; simpl; [rewrite Hf, E; reflexivity|rewrite E; exact IH].
Qed.

Lemma tt_get_modify (tt : TaskTracker) (name : string) f (m : JobTracker) :
  (forall t, ts_name (f t) = ts_name t) ->
  tt_get tt name (tt_modify tt name f m) = option_map f (tt_get tt name m).
Proof.
  intros Hf. unfold tt_get, tt_modify, jt_modify, jt_get.
  destruct (m !! tt_job_name tt) as [j|] eqn:E; [|rewrite E; reflexivity].
  rewrite lookup_insert_eq. simpl.
  apply find_first_modify_first. intros t. rewrite Hf. reflexivity.
Qed.

Lemma st_get_modify_ne (st : StepTracker) (i j : nat) f (m : JobTracker) :
  i <> j -> st_get st i (st_modify st j f m) = st_get st i m.
Proof.
  intros Hij. unfold st_get, st_modify.
  rewrite tt_get_modify by reflexivity.
  destruct (tt_get _ _ m) as [t|]; simpl; [|reflexivity].
  apply list_lookup_alter_ne. congruence.
Qed.

Lemma st_get_modify_eq (st : StepTracker) (i : nat) f (m : JobTracker) :
  st_get st i (st_modify st i f m) = option_map f (st_get st i m).
Proof.
  unfold st_get, st_modify.
  rewrite tt_get_modify by reflexivity.
  destruct (tt_get _ _ m) as [t|]; simpl; [|reflexivity].
  rewrite list_lookup_alter. destruct (decide (i = i)); [|congruence].
  destruct (ts_steps t !! i); reflexivity.
Qed.

(** Updates of other steps of the same task leave step [i] as it was. *)
Lemma apply_ops_other_index (tr : StepTracker) (i : nat) (ops : list Op) (m : JobTracker) :
  (forall op, In op ops -> exists j, j <> i /\
     ((exists st, op = step_op tr j st) \/ (exists l, op = log_op tr j l))) ->
  st_get tr i (apply_ops ops m) = st_get tr i m.
Proof.
  destruct tr as [tn [jn]].
  induction ops as [|op ops IH] in m |- *; simpl; intros H; [reflexivity|].
  rewrite IH by (intros op' Hop'; apply H; right; exact Hop').
  destruct (H op (or_introl eq_refl)) as [j [Hj [[st ->]|[l ->]]]]; simpl;
    [|unfold st_log]; apply st_get_modify_ne; congruence.
Qed.

Lemma apply_ops_app (l1 l2 : list Op) (m : JobTracker) :
  apply_ops (l1 ++ l2) m = apply_ops l2 (apply_ops l1 m).
Proof. induction l1 as [|op l1 IH] in m |- *; simpl; auto. Qed.

Lemma st_get_step_op (tr : StepTracker) (i : nat) (st : Status) (m : JobTracker) :
  st_get tr i (apply_op (step_op tr i st) m) = option_map (set_step_status st) (st_get tr i m).
Proof. destruct tr as [tn [jn]]. apply st_get_modify_eq. Qed.

Lemma st_get_log_ops (tr : StepTracker) (i : nat) (lines : list string) (m : JobTracker)
    a o s0 :
  st_get tr i m = Some (SCommand a o s0) ->
  st_get tr i (apply_ops (map (log_op tr i) lines) m) = Some (SCommand a (o ++ lines) s0).
Proof.
  destruct tr as [tn [jn]].
  induction lines as [|l lines IH] in m, o |- *; simpl; intros H.
  - rewrite app_nil_r. exact H.
  - replace (o ++ l :: lines) with ((o ++ [l]) ++ lines)
      by (rewrite <- app_assoc; reflexivity).
    apply IH. unfold st_log. rewrite (st_get_modify_eq (step_tracker jn tn)).
    change (step_tracker jn tn) with {| st_task_name := tn; st_task_tracker := {| tt_job_name := jn |} |}.
    rewrite H. reflexivity.
Qed.

(** The record of step [i] after the updates of one run of it. *)
Lemma st_get_step_run_ops (tr : StepTracker) (i : nat) (lines : list string) (st : Status)
    (m : JobTracker) a o s0 :
  st_get tr i m = Some (SCommand a o s0) ->
  st_get tr i (apply_ops (step_op tr i Running :: map (log_op tr i) lines ++ [step_op tr i st]) m)
    = Some (SCommand a (o ++ lines) st).
Proof.
  intros H. cbn [apply_ops]. rewrite apply_ops_app. cbn [apply_ops].
  rewrite st_get_step_op.
  rewrite (st_get_log_ops tr i lines _ a o Running); [reflexivity|].
  rewrite st_get_step_op, H. reflexivity.
Qed.

Lemma modify_first_none {A} (p : A -> bool) (f : A -> A) (l : list A) :
  find_first p l = None -> modify_first p f l = l.
Proof.
  induction l as [|x l IH]; simpl; [reflexivity|].
  destruct (p x); [discriminate|]. intros H. rewrite IH by exact H. reflexivity.
Qed.

Lemma modify_first_id {A} (p : A -> bool) (f : A -> A) (l : list A) x :
  find_first p l = Some x -> f x = x -> modify_first p f l = l.
Proof.
  induction l as [|y l IH]; simpl; [discriminate|].
  destruct (p y).
  - intros H Hf. injection H as ->. rewrite Hf. reflexivity.
  - intros H Hf. rewrite (IH H Hf). reflexivity.
Qed.

Lemma alter_out_of_range {A} (f : A -> A) (l : list A) (i : nat) :
  length l <= i -> alter f i l = l.
Proof.
  induction l as [|x l IH] in i |- *; intros H; [reflexivity|].
  destruct i as [|i]; cbn [length] in H; [lia|].
  exact (f_equal (cons x) (IH i ltac:(lia))).
Qed.

Lemma jt_modify_id (name : string) f (m : JobTracker) :
  (forall j, m !! name = Some j -> f j = j) -> jt_modify name f m = m.
Proof.
  unfold jt_modify. destruct (m !! name) as [j|] eqn:E; intros H; [|reflexivity].
  rewrite (H j eq_refl). apply insert_id. exact E.
Qed.

(** ** Steps run in order *)

Abbreviation step_ops os ss b tr :=
  (fun i => snd (step_run os (nth i ss (Command [])) (b + i) tr)) (only parsing).

Lemma steps_run_ok (os : Os) (ss : list Step) (b : nat) (tr : StepTracker) :
  fst (steps_run os ss b tr) = Returned (Ok tt) ->
  (forall i s, nth_error ss i = Some s -> fst (step_run os s (b + i) tr) = Returned (Ok tt)) /\
  snd (steps_run os ss b tr) = concat (map (step_ops os ss b tr) (seq 0 (length ss))).
Proof.
  induction ss as [|s ss IH] in b |- *; simpl.
  - intros _. split; [intros [|i] s' H; discriminate|reflexivity].
  - destruct (step_run os s b tr) as [o ops] eqn:Es.
    destruct o as [[[]|e]|]; simpl; [|intros H; inversion H|intros H; inversion H].
    specialize (IH (S b)). destruct (steps_run os ss (S b) tr) as [o' ops'] eqn:Er.
    simpl in *. intros Ho. destruct (IH Ho) as [IHs IHo]. split.
    + intros [|i] s' H; simpl in H.
      * injection H as <-. rewrite Nat.add_0_r, Es. reflexivity.
      * rewrite Nat.add_succ_r. apply (IHs i s' H).
    + rewrite Nat.add_0_r, Es. simpl. f_equal. rewrite IHo.
      rewrite <- seq_shift, map_map. f_equal. apply map_ext. intros i.
      rewrite Nat.add_succ_r. reflexivity.
Qed.

Lemma steps_run_err_at (os : Os) (ss : list Step) (b : nat) (tr : StepTracker) e :
  fst (steps_run os ss b tr) = Returned (Err e) ->
  exists k s, nth_error ss k = Some s /\
    (forall i s', i < k -> nth_error ss i = Some s' ->
       fst (step_run os s' (b + i) tr) = Returned (Ok tt)) /\
    fst (step_run os s (b + k) tr) = Returned (Err e) /\
    snd (steps_run os ss b tr) = concat (map (step_ops os ss b tr) (seq 0 (S k))).
Proof.
  induction ss as [|s ss IH] in b |- *; simpl; [intros H; inversion H|].
  destruct (step_run os s b tr) as [o ops] eqn:Es.
  destruct o as [[[]|e']|]; simpl; [|intros H; inversion H; subst|intros H; inversion H].
  - specialize (IH (S b)). destruct (steps_run os ss (S b) tr) as [o' ops'] eqn:Er.
    cbn [fst snd] in *. intros Ho. destruct (IH Ho) as [k [s' [Hk [Hpre [Hs' Hops]]]]].
    exists (S k), s'. split; [exact Hk|]. split; [|split].
    + intros [|i] s'' Hi H; simpl in H.
      * injection H as <-. rewrite Nat.add_0_r, Es. reflexivity.
      * rewrite Nat.add_succ_r. apply (Hpre i s''); [lia|exact H].
    + rewrite Nat.add_succ_r. exact Hs'.
    + change (seq 0 (S (S k))) with (0 :: seq 1 (S k)). cbn [map concat nth].
      rewrite Nat.add_0_r, Es. cbn [snd]. f_equal. rewrite Hops.
      rewrite <- (seq_shift (S k) 0), map_map. f_equal. apply map_ext. intros i.
      cbn [nth]. rewrite Nat.add_succ_r. reflexivity.
  - exists 0, s. split; [reflexivity|]. split; [intros i s' Hi; lia|].
    rewrite Nat.add_0_r, Es. split; [reflexivity|]. simpl.
    rewrite app_nil_r. reflexivity.
Qed.

Lemma step_ops_index (os : Os) (ss : list Step) (b n : nat) (tr : StepTracker) op :
  In op (concat (map (step_ops os ss b tr) (seq 0 n))) ->
  exists j, j < b + n /\ ((exists st, op = step_op tr j st) \/ (exists l, op = log_op tr j l)).
Proof.
  intros H. apply in_concat in H as [ops [Hops Hop]].
  apply in_map_iff in Hops as [i [<- Hi]]. apply in_seq in Hi.
  exists (b + i). split; [lia|]. exact (step_run_ops _ _ _ _ _ Hop).
Qed.

(** * Claims *)

(** C1: with an acyclic dependency graph, every dependency present and every
    unit of work succeeding, [Job::run] returns [Ok] and replaces
    [self.tasks] by the finished tasks in completion order, and [Runner::run]
    returns [Ok] and replaces [self.jobs] by the finished jobs; in both, every
    node comes after all of its dependencies and every node is there. *)
Theorem job_and_runner_run_topological :
  (forall (os : Os) (orc : list nat) (self : Job),
    deps_present task_name task_depends (tasks self) ->
    acyclic task_name task_depends (tasks self) ->
    (forall t, In t (tasks self) ->
       fst (task_run os t (step_tracker (job_name self) (task_name t))) = Returned (Ok tt)) ->
    exists fin ops, job_run os orc self = (Some (Ok tt), with_tasks self fin, ops) /\
      topological task_name task_depends fin /\ Permutation fin (tasks self)) /\
  (forall (os : Os) (orcs : Job -> list nat) (orc : list nat) (jobs : list Job)
      (m : JobTracker),
    deps_present job_name job_depends jobs -> acyclic job_name job_depends jobs ->
    (forall j, In j jobs -> fst (fst (job_run os (orcs j) j)) = Some (Ok tt)) ->
    exists fin m' ops, runner_run os orcs orc jobs m = (Some (Ok tt), fin, m', ops) /\
      topological job_name job_depends fin /\
      Permutation (map (key job_name job_depends) fin) (map (key job_name job_depends) jobs)).
Proof. split; [exact job_run_complete|exact runner_run_complete]. Qed.

Lemma job_and_runner_run_topological_witness :
  (exists fin ops, job_run sh [1; 0] diamond = (Some (Ok tt), with_tasks diamond fin, ops) /\
     topological task_name task_depends fin /\ Permutation fin (tasks diamond)) /\
  (exists fin m' ops,
     runner_run sh (fun _ => [1]) [1] pipeline ∅ = (Some (Ok tt), fin, m', ops) /\
     topological job_name job_depends fin /\
     Permutation (map (key job_name job_depends) fin) (map (key job_name job_depends) pipeline)).
Proof.
  split.
  - apply (proj1 job_and_runner_run_topological).
    + unfold deps_present. apply first_missing_present. vm_compute. reflexivity.
    + apply (rank_decreases_acyclic _ _ (fun s => if String.eqb s "c" then 1 else 0)).
      vm_compute. reflexivity.
    + intros t Ht. vm_compute in Ht.
      repeat destruct Ht as [<-|Ht]; try contradiction; vm_compute; reflexivity.
  - apply (proj2 job_and_runner_run_topological).
    + unfold deps_present. apply first_missing_present. vm_compute. reflexivity.
    + apply (rank_decreases_acyclic _ _ (fun s => if String.eqb s "deploy" then 1 else 0)).
      vm_compute. reflexivity.
    + intros j Hj. vm_compute in Hj.
      repeat destruct Hj as [<-|Hj]; try contradiction; vm_compute; reflexivity.
Defined.

(** C3 (corrected): a scheduling turn that finds no ready pending node and
    nothing in flight, with a non-empty pending set, returns
    [CircularDependency] at both levels.  For a dependency cycle of length at
    least 2 among tasks with distinct names (resp. jobs), no node of the
    cycle is ever marked Running and the run does not return [Ok]; but the
    error is [CircularDependency] only when, in addition, every dependency is
    present and every unit of work would succeed: a missing reference or a
    failing node outside the cycle is reported instead
    ([cycle_without_circular_dependency_error]). *)
Theorem stuck_schedule_circular_dependency :
  ((forall (os : Os) (self : Job) fuel orc (pending finished : list Task),
     pending <> [] ->
     (forall t, In t pending -> ready task_name (task_depends t) finished = false) ->
     job_sched os self (S fuel) orc pending [] finished = (Some (Err CircularDependency), [])) /\
   (forall (os : Os) (orcs : Job -> list nat) fuel orc (pending finished : list Job),
     pending <> [] ->
     (forall j, In j pending -> ready job_name (job_depends j) finished = false) ->
     runner_sched os orcs (S fuel) orc pending [] finished
       = (Some (Err CircularDependency), []))) /\
  (forall (os : Os) (orc : list nat) (self : Job) (c : list string),
     NoDup (map task_name (tasks self)) -> dep_cycle task_name task_depends (tasks self) c ->
     (forall x op, In x c -> In op (snd (job_run os orc self)) ->
        op <> OpTask (job_name self) x Running) /\
     fst (fst (job_run os orc self)) <> Some (Ok tt) /\
     (deps_present task_name task_depends (tasks self) ->
      (forall t, In t (tasks self) ->
         fst (task_run os t (step_tracker (job_name self) (task_name t))) = Returned (Ok tt)) ->
      fst (fst (job_run os orc self)) = Some (Err CircularDependency))) /\
  (forall (os : Os) (orcs : Job -> list nat) (orc : list nat) (jobs : list Job)
      (m : JobTracker) (c : list string),
     NoDup (map job_name jobs) -> dep_cycle job_name job_depends jobs c ->
     (forall x op, In x c -> In op (snd (runner_run os orcs orc jobs m)) ->
        op <> OpJob x Running) /\
     fst (fst (fst (runner_run os orcs orc jobs m))) <> Some (Ok tt) /\
     (deps_present job_name job_depends jobs ->
      (forall j, In j jobs -> fst (fst (job_run os (orcs j) j)) = Some (Ok tt)) ->
      fst (fst (fst (runner_run os orcs orc jobs m))) = Some (Err CircularDependency))).
Proof.
  split; [split|split].
  - intros os self fuel orc pending finished Hne Hnr. apply sched_stuck; assumption.
  - intros os orcs fuel orc pending finished Hne Hnr. apply sched_stuck; assumption.
  - intros os orc self c Hnd Hc. unfold job_run.
    destruct (first_missing task_name task_depends (tasks self)) as [d|] eqn:Efm.
    { split; [intros x op _ []|]. split; [discriminate|].
      intros Hd. unfold first_missing in Efm.
      rewrite first_missing_none in Efm by exact Hd. discriminate. }
    unfold job_sched.
    pose proof (sched_cycle task_name task_depends (task_unit os (job_name self))
      (fun n st => OpTask (job_name self) n st) (tasks self) c
      (S (length (tasks self))) orc (tasks self) [] [] Hnd Hc) as Hcy.
    pose proof (sched_terminates task_name task_depends (task_unit os (job_name self))
      (fun n st => OpTask (job_name self) n st) (S (length (tasks self))) orc
      (tasks self) [] [] ltac:(simpl; lia)) as Ht.
    pose proof (fun e => sched_errors task_name task_depends (task_unit os (job_name self))
      (fun n st => OpTask (job_name self) n st) (tasks self) (S (length (tasks self))) orc
      (tasks self) [] [] e) as He.
    revert Hcy Ht He.
    destruct (sched _ _ _ _ _ _ _ _ _) as [r ops] eqn:E. simpl.
    intros Hcy Ht He.
    destruct Hcy as [Hno Hnok].
    + intros n n' ops0 Hw. apply task_unit_ok in Hw. subst. reflexivity.
    + intros n o ops0 x Hw Hin.
      apply (proj2 (task_unit_ops os (job_name self) n _ ltac:(rewrite Hw; exact Hin))
        (job_name self) x Running). reflexivity.
    + intros x y s t H. injection H. auto.
    + apply incl_refl.
    + intros y [].
    + intros y [].
    + intros y Hy _. exact Hy.
    + destruct r as [[fin|e]|]; [exfalso; exact (Hnok fin eq_refl)| |congruence].
      split; [exact Hno|]. split; [discriminate|]. intros Hd Hs.
      simpl. do 2 f_equal. apply (He e).
      * intros t Ht'. destruct (task_unit_of_run os (job_name self) t (Hs t Ht')) as [o Hu].
        eauto.
      * apply incl_refl.
      * intros y [].
      * reflexivity.
  - intros os orcs orc jobs m c Hnd Hc. unfold runner_run.
    destruct (validate jobs jobs m) as [[u|e] m'] eqn:Ev.
    2:{ split; [intros x op _ []|]. split; [discriminate|].
        intros Hd. destruct (validate_ok jobs jobs m Hd) as [m'' Hv]. congruence. }
    unfold runner_sched.
    pose proof (sched_cycle job_name job_depends (job_unit os orcs) OpJob jobs c
      (S (length jobs)) orc jobs [] [] Hnd Hc) as Hcy.
    pose proof (sched_terminates job_name job_depends (job_unit os orcs) OpJob
      (S (length jobs)) orc jobs [] [] ltac:(simpl; lia)) as Ht.
    pose proof (fun e => sched_errors job_name job_depends (job_unit os orcs) OpJob jobs
      (S (length jobs)) orc jobs [] [] e) as He.
    revert Hcy Ht He.
    destruct (sched _ _ _ _ _ _ _ _ _) as [r ops] eqn:E. simpl.
    intros Hcy Ht He.
    destruct Hcy as [Hno Hnok].
    + intros n n' ops0 Hw. apply job_unit_ok in Hw. unfold key in Hw. congruence.
    + intros n o ops0 x Hw Hin.
      apply (job_unit_ops os orcs n _ ltac:(rewrite Hw; exact Hin) x Running). reflexivity.
    + intros x y s t H. injection H. auto.
    + apply incl_refl.
    + intros y [].
    + intros y [].
    + intros y Hy _. exact Hy.
    + destruct r as [[fin|e]|]; [exfalso; exact (Hnok fin eq_refl)| |congruence].
      split; [exact Hno|]. split; [discriminate|]. intros Hd Hs.
      simpl. do 2 f_equal. apply (He e).
      * intros j Hj. destruct (job_unit_of_run os orcs j (Hs j Hj)) as [j' [o [Hu _]]].
        eauto.
      * apply incl_refl.
      * intros y [].
      * reflexivity.
Qed.

Lemma stuck_schedule_circular_dependency_witness :
  job_sched sh cyclic_job 1 [] [mk_task "a" ["b"] [["true"]]] [] []
    = (Some (Err CircularDependency), []) /\
  runner_sched sh (fun _ => []) 1 [] (firstn 2 cyclic_jobs) [] []
    = (Some (Err CircularDependency), []) /\
  fst (fst (job_run sh [0; 0; 0] cyclic_job)) = Some (Err CircularDependency) /\
  fst (fst (fst (runner_run sh (fun _ => [0]) [0; 0; 0] cyclic_jobs ∅)))
    = Some (Err CircularDependency).
Proof.
  destruct stuck_schedule_circular_dependency as [[Hj Hr] [Hjc Hrc]].
  split; [|split; [|split]].
  - apply Hj; [discriminate|].
    intros t [<-|[]]. reflexivity.
  - apply Hr; [discriminate|].
    intros j Hj'. vm_compute in Hj'. destruct Hj' as [<-|[<-|[]]]; reflexivity.
  - apply (Hjc sh [0; 0; 0] cyclic_job ["a"; "b"]).
    + apply (bool_decide_unpack _). vm_compute. exact I.
    + split; [simpl; lia|]. intros i x H.
      destruct i as [|[|i]]; simpl in H.
      * injection H as <-. exists (mk_task "a" ["b"] [["true"]]).
        split; [simpl; auto|]. split; [reflexivity|]. simpl. auto.
      * injection H as <-. exists (mk_task "b" ["a"] [["true"]]).
        split; [simpl; auto|]. split; [reflexivity|]. simpl. auto.
      * destruct i; discriminate.
    + unfold deps_present. apply first_missing_present. vm_compute. reflexivity.
    + intros t Ht. vm_compute in Ht.
      repeat destruct Ht as [<-|Ht]; try contradiction; vm_compute; reflexivity.
  - apply (Hrc sh (fun _ => [0]) [0; 0; 0] cyclic_jobs ∅ ["x"; "y"]).
    + apply (bool_decide_unpack _). vm_compute. exact I.
    + split; [simpl; lia|]. intros i x H.
      destruct i as [|[|i]]; simpl in H.
      * injection H as <-. exists (mk_job "x" ["y"] [mk_task "t" [] [["true"]]]).
        split; [simpl; auto|]. split; [reflexivity|]. simpl. auto.
      * injection H as <-. exists (mk_job "y" ["x"] [mk_task "t" [] [["true"]]]).
        split; [simpl; auto|]. split; [reflexivity|]. simpl. auto.
      * destruct i; discriminate.
    + unfold deps_present. apply first_missing_present. vm_compute. reflexivity.
    + intros j Hj'. vm_compute in Hj'.
      repeat destruct Hj' as [<-|Hj']; try contradiction; vm_compute; reflexivity.
Defined.

(** C3 counterexample: a job whose tasks [a] and [b] form a cycle does not
    return [CircularDependency] when its independent task [c] fails (it
    returns [c]'s exit-status error), nor when [c] names a missing task (it
    returns [MissingDependency]). *)
Lemma cycle_without_circular_dependency_error :
  dep_cycle task_name task_depends (tasks cyclic_failing_job) ["a"; "b"] /\
  fst (fst (job_run sh [0; 0; 0] cyclic_failing_job)) = Some (Err (Exit {| code := Some 1%Z |})) /\
  dep_cycle task_name task_depends (tasks cyclic_missing_job) ["a"; "b"] /\
  fst (fst (job_run sh [0; 0; 0] cyclic_missing_job)) = Some (Err (MissingDependency "loop/nope")).
Proof.
  split; [|split; [vm_compute; reflexivity|split; [|vm_compute; reflexivity]]];
    (split; [simpl; lia|]); intros i x H;
    (destruct i as [|[|i]]; simpl in H;
      [injection H as <-; exists (mk_task "a" ["b"] [["true"]]);
       split; [simpl; auto|]; split; [reflexivity|]; simpl; auto
      |injection H as <-; exists (mk_task "b" ["a"] [["true"]]);
       split; [simpl; auto|]; split; [reflexivity|]; simpl; auto
      |destruct i; discriminate]).
Qed.

(** C2 (code bug): [Job::run] and [Runner::run] pass a failed unit's error
    on unchanged ([Ok(Err(e)) => return Err(e)]); no path builds [TaskFailed]
    or [JobFailed], so neither ever returns one.  On the failing input, task
    [A] of job [ci] exits with code 1: both runs return the bare exit-status
    error, which does not name the failing task or job.  Task [B] is never
    marked Running. *)
Theorem failed_node_error_not_wrapped :
  (forall (os : Os) (orc : list nat) (self : Job) e,
     fst (fst (job_run os orc self)) = Some (Err e) ->
     (forall t, e <> TaskFailed t) /\ (forall j, e <> JobFailed j)) /\
  (forall (os : Os) (orcs : Job -> list nat) (orc : list nat) (jobs : list Job)
      (m : JobTracker) e,
     fst (fst (fst (runner_run os orcs orc jobs m))) = Some (Err e) ->
     (forall t, e <> TaskFailed t) /\ (forall j, e <> JobFailed j)) /\
  job_run sh [0] failing_job =
    (Some (Err (Exit {| code := Some 1%Z |})), failing_job,
     [OpTask "ci" "A" Running; OpStep "ci" "A" 0 Running;
      OpStep "ci" "A" 0 Failed; OpTask "ci" "A" Failed]) /\
  runner_run sh (fun _ => [0]) [0] [failing_job] ∅ =
    (Some (Err (Exit {| code := Some 1%Z |})), [failing_job],
     jt_insert (job_status_of failing_job) ∅,
     [OpJob "ci" Running; OpTask "ci" "A" Running;
      OpStep "ci" "A" 0 Running; OpStep "ci" "A" 0 Failed;
      OpTask "ci" "A" Failed; OpJob "ci" Failed]).
Proof.
  split; [|split; [|split]].
  - intros os orc self e H.
    destruct (job_run_err os orc self e H)
      as [[d ->]|[->|[->|[[io ->]|[st ->]]]]]; split; intros; discriminate.
  - intros os orcs orc jobs m e H.
    destruct (runner_run_err os orcs orc jobs m e H)
      as [[d ->]|[->|[->|[[io ->]|[st ->]]]]]; split; intros; discriminate.
  - vm_compute. reflexivity.
  - vm_compute. reflexivity.
Qed.

Lemma failed_node_error_not_wrapped_witness :
  (forall t, Exit {| code := Some 1%Z |} <> TaskFailed t) /\
  (forall j, Exit {| code := Some 1%Z |} <> JobFailed j).
Proof.
  apply (proj1 failed_node_error_not_wrapped sh [0] failing_job).
  vm_compute. reflexivity.
Defined.

(** C4: when some task of a job depends on a name no task of the job has,
    [Job::run] returns [MissingDependency "<job>/<dep>"] for such a reference,
    leaves the job as it was and makes no tracker update, so no task is ever
    marked Running; when some job depends on a name no job has,
    [Runner::run] returns [MissingDependency "<dep>"] for such a reference
    with no scheduling update. *)
Theorem missing_dependency_before_running :
  (forall (os : Os) (orc : list nat) (self : Job),
     (exists t d, In t (tasks self) /\ In d (task_depends t) /\
        forall u, In u (tasks self) -> task_name u <> d) ->
     exists t d, In t (tasks self) /\ In d (task_depends t) /\
       (forall u, In u (tasks self) -> task_name u <> d) /\
       job_run os orc self =
         (Some (Err (MissingDependency (String.append (job_name self) (String.append "/" d)))),
          self, [])) /\
  (forall (os : Os) (orcs : Job -> list nat) (orc : list nat) (jobs : list Job)
      (m : JobTracker),
     (exists j d, In j jobs /\ In d (job_depends j) /\
        forall u, In u jobs -> job_name u <> d) ->
     exists j d m', In j jobs /\ In d (job_depends j) /\
       (forall u, In u jobs -> job_name u <> d) /\
       runner_run os orcs orc jobs m = (Some (Err (MissingDependency d)), jobs, m', [])).
Proof.
  split.
  - intros os orc self [t0 [d0 [Ht0 [Hd0 Hu0]]]]. unfold job_run, first_missing.
    destruct (first_missing_in task_name task_depends (tasks self) (tasks self)) as [d|] eqn:E.
    + destruct (first_missing_some task_name task_depends _ _ _ E) as [t [Ht [Hd Hu]]].
      exists t, d. auto.
    + exfalso.
      destruct (first_missing_present task_name task_depends _ _ E t0 d0 Ht0 Hd0)
        as [u [Hu Hud]].
      exact (Hu0 u Hu Hud).
  - intros os orcs orc jobs m Hm. unfold runner_run.
    destruct (validate_missing jobs jobs m Hm) as [e [m' Hv]]. rewrite Hv.
    destruct (validate_err _ _ _ _ _ Hv) as [j [d [Hj [Hd [Hu ->]]]]].
    exists j, d, m'. auto.
Qed.

Lemma missing_dependency_before_running_witness :
  (exists t d, In t (tasks missing_job) /\ In d (task_depends t) /\
     (forall u, In u (tasks missing_job) -> task_name u <> d) /\
     job_run sh [] missing_job =
       (Some (Err (MissingDependency (String.append "ci" (String.append "/" d)))),
        missing_job, [])) /\
  (exists j d m', In j missing_jobs /\ In d (job_depends j) /\
     (forall u, In u missing_jobs -> job_name u <> d) /\
     runner_run sh (fun _ => []) [] missing_jobs ∅ =
       (Some (Err (MissingDependency d)), missing_jobs, m', [])).
Proof.
  split.
  - apply (proj1 missing_dependency_before_running sh [] missing_job).
    exists (mk_task "A" ["nope"] [["true"]]), "nope".
    split; [left; reflexivity|]. split; [left; reflexivity|].
    intros u Hu. vm_compute in Hu. destruct Hu as [<-|[]]. simpl. discriminate.
  - apply (proj2 missing_dependency_before_running sh (fun _ => []) [] missing_jobs ∅).
    exists (mk_job "y" ["nope"] [mk_task "t" [] [["true"]]]), "nope".
    split; [right; left; reflexivity|]. split; [left; reflexivity|].
    intros u Hu. vm_compute in Hu. destruct Hu as [<-|[<-|[]]]; simpl; discriminate.
Defined.

(** C10: when [Job::run] returns an error the job is left as it was (name,
    depends and tasks), and when [Runner::run] returns an error [self.jobs] is
    left as it was: the finished collection replaces the original one only on
    the [Ok] path. *)
Theorem error_keeps_collection :
  (forall (os : Os) (orc : list nat) (self : Job) e,
     fst (fst (job_run os orc self)) = Some (Err e) ->
     snd (fst (job_run os orc self)) = self) /\
  (forall (os : Os) (orcs : Job -> list nat) (orc : list nat) (jobs : list Job)
      (m : JobTracker) e,
     fst (fst (fst (runner_run os orcs orc jobs m))) = Some (Err e) ->
     snd (fst (fst (runner_run os orcs orc jobs m))) = jobs).
Proof.
  split.
  - intros os orc self e. unfold job_run.
    destruct (first_missing _ _ _) as [d|]; [reflexivity|].
    destruct (job_sched _ _ _ _ _ _ _) as [[[fin|e']|] ops]; simpl;
      intros H; inversion H; reflexivity.
  - intros os orcs orc jobs m e. unfold runner_run.
    destruct (validate jobs jobs m) as [[u|e'] m']; [|reflexivity].
    destruct (runner_sched _ _ _ _ _ _ _) as [[[fin|e']|] ops]; simpl;
      intros H; inversion H; reflexivity.
Qed.

Lemma error_keeps_collection_witness :
  snd (fst (job_run sh [0] failing_job)) = failing_job /\
  snd (fst (fst (runner_run sh (fun _ => [0]) [0] [failing_job] ∅))) = [failing_job].
Proof.
  split.
  - apply (proj1 error_keeps_collection sh [0] failing_job (Exit {| code := Some 1%Z |})).
    vm_compute. reflexivity.
  - apply (proj2 error_keeps_collection sh (fun _ => [0]) [0] [failing_job] ∅
      (Exit {| code := Some 1%Z |})).
    vm_compute. reflexivity.
Defined.

(** C5: [Task::run] runs its steps one after the other in declared order:
    its tracker updates are those of step 0, then step 1, and so on.  A task
    with no steps returns [Ok] with no update.  When it returns an error, some
    step [k] returned that error, every step before [k] returned [Ok], the
    updates are those of steps [0..k] in order, and no step after [k] has its
    tracker record changed (so one still Pending stays Pending). *)
Theorem task_steps_in_order :
  (forall (os : Os) (t : Task) (tr : StepTracker),
     steps t = [] -> task_run os t tr = (Returned (Ok tt), [])) /\
  (forall (os : Os) (t : Task) (tr : StepTracker),
     fst (task_run os t tr) = Returned (Ok tt) ->
     (forall i s, nth_error (steps t) i = Some s ->
        fst (step_run os s i tr) = Returned (Ok tt)) /\
     snd (task_run os t tr) =
       concat (map (fun i => snd (step_run os (nth i (steps t) (Command [])) i tr))
                 (seq 0 (length (steps t))))) /\
  (forall (os : Os) (t : Task) (tr : StepTracker) e,
     fst (task_run os t tr) = Returned (Err e) ->
     exists k s, nth_error (steps t) k = Some s /\
       (forall i s', i < k -> nth_error (steps t) i = Some s' ->
          fst (step_run os s' i tr) = Returned (Ok tt)) /\
       fst (step_run os s k tr) = Returned (Err e) /\
       snd (task_run os t tr) =
         concat (map (fun i => snd (step_run os (nth i (steps t) (Command [])) i tr))
                   (seq 0 (S k))) /\
       forall i (m : JobTracker), k < i ->
         st_get tr i (apply_ops (snd (task_run os t tr)) m) = st_get tr i m).
Proof.
  split; [|split].
  - intros os t tr H. unfold task_run. rewrite H. reflexivity.
  - intros os t tr H. exact (steps_run_ok os (steps t) 0 tr H).
  - intros os t tr e H. unfold task_run in *.
    destruct (steps_run_err_at os (steps t) 0 tr e H) as [k [s [Hk [Hpre [Hs Hops]]]]].
    exists k, s. split; [exact Hk|]. split; [exact Hpre|]. split; [exact Hs|].
    split; [exact Hops|].
    intros i m Hi. apply apply_ops_other_index. intros op Hop.
    rewrite Hops in Hop. apply step_ops_index in Hop as [j [Hj Hop]].
    exists j. split; [lia|exact Hop].
Qed.

Lemma task_steps_in_order_witness :
  task_run sh (mk_task "t" [] []) (step_tracker "j" "t") = (Returned (Ok tt), []) /\
  st_get (step_tracker "ci" "A") 1
    (apply_ops (snd (task_run sh (mk_task "A" [] [["false"]; ["true"]]) (step_tracker "ci" "A")))
       (jt_insert (job_status_of (mk_job "ci" [] [mk_task "A" [] [["false"]; ["true"]]])) ∅))
  = Some (SCommand ["true"] [] Pending).
Proof.
  destruct task_steps_in_order as [H0 [_ Herr]]. split.
  - apply H0. reflexivity.
  - destruct (Herr sh (mk_task "A" [] [["false"]; ["true"]]) (step_tracker "ci" "A")
      (Exit {| code := Some 1%Z |}) ltac:(vm_compute; reflexivity))
      as [k [s [Hk [_ [Hs [_ Hlater]]]]]].
    destruct k as [|k].
    + rewrite Hlater by lia. vm_compute. reflexivity.
    + exfalso. destruct k as [|k]; simpl in Hk; [injection Hk as <-; discriminate|].
      destruct k; discriminate.
Defined.

(** C6: for [Command (exe :: rest)]: when the process runs and exits with
    code 0, [Step::run] returns [Ok] and its last update marks the step
    Finished; with any other exit status it returns [Exit status] and its last
    update marks the step Failed; in both cases the step's tracker record ends
    with that status.  When the spawn fails, or waiting for the exit status
    fails, it returns [Io e] and records neither Finished nor Failed. *)
Theorem step_run_exit_paths :
  forall (os : Os) (exe : string) (rest : list string) (i : nat) (tr : StepTracker),
    (forall lines st, os exe rest = Spawned lines (Ok st) ->
       (code st = Some 0%Z ->
          step_run os (Command (exe :: rest)) i tr =
            (Returned (Ok tt),
             step_op tr i Running :: map (log_op tr i) lines ++ [step_op tr i Finished])) /\
       (code st <> Some 0%Z ->
          step_run os (Command (exe :: rest)) i tr =
            (Returned (Err (Exit st)),
             step_op tr i Running :: map (log_op tr i) lines ++ [step_op tr i Failed])) /\
       (forall (m : JobTracker) a o s0, st_get tr i m = Some (SCommand a o s0) ->
          st_get tr i (apply_ops (snd (step_run os (Command (exe :: rest)) i tr)) m) =
            Some (SCommand a (o ++ lines) (if success st then Finished else Failed)))) /\
    (forall e, os exe rest = SpawnFailed e ->
       step_run os (Command (exe :: rest)) i tr = (Returned (Err (Io e)), [step_op tr i Running])) /\
    (forall lines e, os exe rest = Spawned lines (Err e) ->
       step_run os (Command (exe :: rest)) i tr =
         (Returned (Err (Io e)), step_op tr i Running :: map (log_op tr i) lines)) /\
    (forall op st, In op (snd (step_run os (Command (exe :: rest)) i tr)) ->
       fst (step_run os (Command (exe :: rest)) i tr) = Returned (Err (Io st)) ->
       op <> step_op tr i Finished /\ op <> step_op tr i Failed).
Proof.
  intros os exe rest i tr.
  assert (Hrun : step_run os (Command (exe :: rest)) i tr =
    match os exe rest with
    | SpawnFailed e => (Returned (Err (Io e)), [step_op tr i Running])
    | Spawned lines wait =>
        match wait with
        | Err e => (Returned (Err (Io e)), step_op tr i Running :: map (log_op tr i) lines)
        | Ok status =>
            if success status then
              (Returned (Ok tt), step_op tr i Running :: map (log_op tr i) lines ++
                                   [step_op tr i Finished])
            else (Returned (Err (Exit status)), step_op tr i Running ::
                    map (log_op tr i) lines ++ [step_op tr i Failed])
        end
    end).
  { unfold step_run. simpl. unfold slice_from. simpl. rewrite drop_0. reflexivity. }
  rewrite Hrun. split; [|split; [|split]].
  - intros lines st Hos. rewrite Hos. unfold success. split; [|split].
    + intros ->. reflexivity.
    + intros Hc. destruct (code st) as [[|p|p]|]; try reflexivity. congruence.
    + intros m a o s0 Hm. fold (success st).
      destruct (success st); exact (st_get_step_run_ops tr i lines _ m a o s0 Hm).
  - intros e Hos. rewrite Hos. reflexivity.
  - intros lines e Hos. rewrite Hos. reflexivity.
  - intros op st. destruct (os exe rest) as [e|lines [status|e]].
    + intros [<-|[]] _. unfold step_op. split; intros H; injection H; discriminate.
    + destruct (success status); intros _ H; inversion H.
    + intros Hop _. simpl in Hop. destruct Hop as [<-|Hop].
      * unfold step_op. split; intros H; injection H; discriminate.
      * apply in_map_iff in Hop as [l [<- _]]. unfold log_op, step_op.
        split; discriminate.
Qed.

Lemma step_run_exit_paths_witness :
  step_run sh (Command ["echo"; "hi"]) 0 (step_tracker "j" "t") =
    (Returned (Ok tt),
     step_op (step_tracker "j" "t") 0 Running ::
       map (log_op (step_tracker "j" "t") 0) ["hi"] ++
       [step_op (step_tracker "j" "t") 0 Finished]) /\
  step_run sh (Command ["false"]) 0 (step_tracker "j" "t") =
    (Returned (Err (Exit {| code := Some 1%Z |})),
     step_op (step_tracker "j" "t") 0 Running ::
       map (log_op (step_tracker "j" "t") 0) [] ++
       [step_op (step_tracker "j" "t") 0 Failed]) /\
  step_run sh (Command ["make"]) 0 (step_tracker "j" "t") =
    (Returned (Err (Io (IoErr "NotFound"))), [step_op (step_tracker "j" "t") 0 Running]).
Proof.
  split; [|split].
  - apply (proj1 (step_run_exit_paths sh "echo" ["hi"] 0 (step_tracker "j" "t"))
      ["hi"] {| code := Some 0%Z |}); reflexivity.
  - apply (proj1 (proj2 (proj1 (step_run_exit_paths sh "false" [] 0 (step_tracker "j" "t"))
      [] {| code := Some 1%Z |} eq_refl))). discriminate.
  - apply (proj1 (proj2 (step_run_exit_paths sh "make" [] 0 (step_tracker "j" "t")))).
    reflexivity.
Defined.

(** C9: for a [Command] step with a non-empty argument list, [args[0]] and
    [&args[1..]] are in bounds, so [Step::run] does not panic; with an empty
    list it does. *)
Theorem step_run_nonempty_args_no_panic :
  (forall (os : Os) (args : list string) (i : nat) (tr : StepTracker),
     args <> [] -> fst (step_run os (Command args) i tr) <> Panicked) /\
  (forall (os : Os) (i : nat) (tr : StepTracker),
     fst (step_run os (Command []) i tr) = Panicked).
Proof.
  split; [|reflexivity].
  intros os [|exe rest] i tr Hne; [congruence|].
  unfold step_run. simpl. unfold slice_from. simpl.
  destruct (os exe (drop 0 rest)) as [e|lines [st|e]]; simpl; try discriminate.
  destruct (success st); discriminate.
Qed.

Lemma step_run_nonempty_args_no_panic_witness :
  fst (step_run sh (Command ["echo"; "hi"]) 0 (step_tracker "j" "t")) <> Panicked.
Proof.
  apply (proj1 step_run_nonempty_args_no_panic). discriminate.
Defined.

(** C8: [JobTracker::get] returns the stored record or nothing, and through
    the scoped views an unknown job, an unknown task or an out-of-range step
    index gives nothing.  [modify] with an unknown key (job, task, or step
    index) leaves the tracker as it was, and with a known key stores the
    caller's mutation of the record. *)
Theorem tracker_get_modify :
  (forall (name : string) (m : JobTracker),
     (m !! name = None -> jt_get name m = None) /\
     (forall j, m !! name = Some j -> jt_get name m = Some j)) /\
  (forall (name : string) f (m : JobTracker),
     (m !! name = None -> jt_modify name f m = m) /\
     (forall j, m !! name = Some j -> jt_modify name f m = <[name := f j]> m)) /\
  (forall (tt : TaskTracker) (name : string) (m : JobTracker),
     (forall j, m !! tt_job_name tt = Some j -> forall t, In t (js_tasks j) -> ts_name t <> name) ->
     tt_get tt name m = None) /\
  (forall (tt : TaskTracker) (name : string) f (m : JobTracker),
     (forall j, m !! tt_job_name tt = Some j -> forall t, In t (js_tasks j) -> ts_name t <> name) ->
     tt_modify tt name f m = m) /\
  (forall (tt : TaskTracker) (name : string) f (m : JobTracker),
     (forall t, ts_name (f t) = ts_name t) ->
     tt_get tt name (tt_modify tt name f m) = option_map f (tt_get tt name m)) /\
  (forall (st : StepTracker) (index : nat) (m : JobTracker),
     (forall t, tt_get (st_task_tracker st) (st_task_name st) m = Some t ->
        length (ts_steps t) <= index) ->
     st_get st index m = None) /\
  (forall (st : StepTracker) (index : nat) f (m : JobTracker),
     (forall t, tt_get (st_task_tracker st) (st_task_name st) m = Some t ->
        length (ts_steps t) <= index) ->
     st_modify st index f m = m) /\
  (forall (st : StepTracker) (index : nat) f (m : JobTracker),
     st_get st index (st_modify st index f m) = option_map f (st_get st index m)).
Proof.
  split; [|split; [|split; [|split; [|split; [|split; [|split]]]]]].
  - intros name m. unfold jt_get. split; [auto|intros j ->; reflexivity].
  - intros name f m. unfold jt_modify. split; [intros ->; reflexivity|intros j ->; reflexivity].
  - intros tt name m H. unfold tt_get, jt_get.
    destruct (m !! tt_job_name tt) as [j|] eqn:E; [|reflexivity].
    apply find_first_none. intros t Ht. apply String.eqb_neq. exact (H j eq_refl t Ht).
  - intros tt name f m H. unfold tt_modify. apply jt_modify_id. intros j Hj.
    rewrite modify_first_none; [destruct j; reflexivity|].
    apply find_first_none. intros t Ht. apply String.eqb_neq. exact (H j Hj t Ht).
  - intros tt name f m Hf. apply tt_get_modify. exact Hf.
  - intros st index m H. unfold st_get.
    destruct (tt_get _ _ m) as [t|] eqn:E; [|reflexivity].
    apply lookup_ge_None_2. exact (H t eq_refl).
  - intros st index f m H. unfold st_modify, tt_modify. apply jt_modify_id.
    intros j Hj.
    destruct (find_first (fun t => String.eqb (ts_name t) (st_task_name st)) (js_tasks j))
      as [t|] eqn:Ef.
    + rewrite (modify_first_id _ _ _ t Ef); [destruct j; reflexivity|].
      rewrite alter_out_of_range; [destruct t; reflexivity|].
      apply H. unfold tt_get, jt_get. rewrite Hj. exact Ef.
    + rewrite modify_first_none by exact Ef. destruct j; reflexivity.
  - intros st index f m. apply st_get_modify_eq.
Qed.

Lemma tracker_get_modify_witness :
  jt_get "nope" (jt_insert (job_status_of failing_job) ∅) = None /\
  jt_modify "nope" (set_job_status Running) (jt_insert (job_status_of failing_job) ∅)
    = jt_insert (job_status_of failing_job) ∅ /\
  tt_get {| tt_job_name := "ci" |} "C" (jt_insert (job_status_of failing_job) ∅) = None /\
  tt_modify {| tt_job_name := "ci" |} "C" (set_task_status Running)
    (jt_insert (job_status_of failing_job) ∅) = jt_insert (job_status_of failing_job) ∅ /\
  st_get (step_tracker "ci" "A") 1 (jt_insert (job_status_of failing_job) ∅) = None /\
  st_modify (step_tracker "ci" "A") 1 (set_step_status Running)
    (jt_insert (job_status_of failing_job) ∅) = jt_insert (job_status_of failing_job) ∅.
Proof.
  destruct tracker_get_modify as [Hjg [Hjm [Htg [Htm [_ [Hsg [Hsm _]]]]]]].
  assert (Hl : jt_insert (job_status_of failing_job) ∅ !! "nope" = None)
    by (vm_compute; reflexivity).
  assert (Ht : forall j, jt_insert (job_status_of failing_job) ∅ !! tt_job_name {| tt_job_name := "ci" |}
      = Some j -> forall t, In t (js_tasks j) -> ts_name t <> "C").
  { intros j Hj. vm_compute in Hj. injection Hj as <-. intros t Ht. vm_compute in Ht.
    destruct Ht as [<-|[<-|[]]]; discriminate. }
  assert (Hs : forall t, tt_get (st_task_tracker (step_tracker "ci" "A")) (st_task_name (step_tracker "ci" "A"))
      (jt_insert (job_status_of failing_job) ∅) = Some t -> length (ts_steps t) <= 1).
  { intros t H. vm_compute in H. injection H as <-. simpl. lia. }
  split; [|split; [|split; [|split; [|split]]]].
  - apply (proj1 (Hjg _ _) Hl).
  - apply (proj1 (Hjm _ _ _) Hl).
  - apply (Htg _ _ _ Ht).
  - apply (Htm _ _ _ _ Ht).
  - apply (Hsg _ _ _ Hs).
  - apply (Hsm _ _ _ _ Hs).
Defined.

(** C7 (code bug): the loop spawns a ready node's future and only then marks
    the node Running.  For a task with no steps, the spawned future makes one
    update, marking the task Finished; the loop's next update marks it
    Running.  If the future runs first, the tracker shows the task Pending,
    then Finished, then Running: it skips Running on the way to Finished, then
    goes back from Finished to Running and stays there.  The same holds for a
    job with no tasks in [Runner::run]. *)
Theorem status_finished_before_running :
  snd (job_run sh [] stepless_job) = [OpTask "j" "t" Running; OpTask "j" "t" Finished] /\
  snd (unit_run task_name (task_unit sh "j") (fun n st => OpTask "j" n st)
         (mk_task "t" [] [])) = [OpTask "j" "t" Finished] /\
  interleaving [OpTask "j" "t" Finished] [OpTask "j" "t" Running]
    [OpTask "j" "t" Finished; OpTask "j" "t" Running] /\
  observe (task_status "j" "t") [OpTask "j" "t" Finished; OpTask "j" "t" Running]
    (jt_insert (job_status_of stepless_job) ∅) = [Some Pending; Some Finished; Some Running] /\
  snd (runner_run sh (fun _ => []) [] taskless_jobs ∅) = [OpJob "j" Running; OpJob "j" Finished] /\
  snd (unit_run job_name (job_unit sh (fun _ => [])) OpJob (mk_job "j" [] []))
    = [OpJob "j" Finished] /\
  interleaving [OpJob "j" Finished] [OpJob "j" Running] [OpJob "j" Finished; OpJob "j" Running] /\
  observe (job_status "j") [OpJob "j" Finished; OpJob "j" Running]
    (snd (fst (runner_run sh (fun _ => []) [] taskless_jobs ∅)))
    = [Some Pending; Some Finished; Some Running].
Proof.
  split; [vm_compute; reflexivity|].
  split; [vm_compute; reflexivity|].
  split; [repeat constructor|].
  split; [vm_compute; reflexivity|].
  split; [vm_compute; reflexivity|].
  split; [vm_compute; reflexivity|].
  split; [repeat constructor|].
  vm_compute; reflexivity.
Qed.

(** * Further properties of the code *)

(** ** The scheduling loop: marks *)

Lemma split_app {A} (l1 l2 pre post : list A) (a : A) :
  l1 ++ l2 = pre ++ a :: post ->
  (exists post1, l1 = pre ++ a :: post1) \/ (exists pre2, l2 = pre2 ++ a :: post /\ pre = l1 ++ pre2).
Proof.
  induction l1 as [|b l1 IH] in pre |- *; simpl; intros H.
  - right. exists pre. auto.
  - destruct pre as [|c pre]; simpl in H; injection H as Hb H.
    + subst b. left. exists l1. reflexivity.
    + subst c. destruct (IH pre H) as [[post1 ->]|[pre2 [H2 ->]]].
      * left. exists post1. reflexivity.
      * right. exists pre2. auto.
Qed.

Section SchedMarks.
Context {N : Type}.
Variable name : N -> string.
Variable depends : N -> list string.
Variable work : N -> Outcome (Result N Error) * list Op.
Variable mark : string -> Status -> Op.
Hypothesis work_name : forall n n' ops, work n = (Returned (Ok n'), ops) -> name n' = name n.

Local Abbreviation loop := (sched name depends work mark).

Lemma unit_run_ok_finished (n n' : N) ops :
  unit_run name work mark n = (Returned (Ok n'), ops) ->
  name n' = name n /\ In (mark (name n) Finished) ops.
Proof.
  unfold unit_run. destruct (work n) as [[[m|e]|] ops0] eqn:Hw; intros H; inversion H; subst.
  split; [exact (work_name _ _ _ Hw)|]. apply in_or_app. right. left. reflexivity.
Qed.

(** On success every node the loop finishes was marked Running (by this
    call, or it was already in flight) and then Finished. *)
Lemma sched_ok_marks fuel orc (pending running finished fin : list N) :
  fst (loop fuel orc pending running finished) = Some (Ok fin) ->
  forall x, In x fin -> In x finished \/
    (In (mark (name x) Finished) (snd (loop fuel orc pending running finished)) /\
     (In (mark (name x) Running) (snd (loop fuel orc pending running finished)) \/
      exists r, In r running /\ name r = name x)).
Proof.
  induction fuel as [|fuel IH] in orc, pending, running, finished |- *;
    [intros H; inversion H|].
  cbn [sched]. cbv zeta.
  remember (List.filter (fun n => ready name (depends n) finished) pending) as L eqn:EL.
  remember (List.filter (fun n => negb (ready name (depends n) finished)) pending)
    as P' eqn:EP.
  destruct (running ++ L) as [|y ys] eqn:ER.
  { destruct P'; simpl; intros H; inversion H; subst. intros x Hx. left. exact Hx. }
  destruct (extract (hd 0 orc mod length (y :: ys)) (y :: ys)) as [[n rest]|] eqn:Ex;
    [|intros H; inversion H].
  pose proof (extract_perm _ _ _ _ Ex) as Hperm. rewrite <- ER in Hperm.
  assert (Hsrc : forall z, In z (n :: rest) ->
            In (mark (name z) Running) (map (fun n => mark (name n) Running) L) \/
            exists r, In r running /\ name r = name z).
  { intros z Hz. apply (Permutation_in _ (Permutation_sym Hperm)) in Hz.
    apply in_app_or in Hz as [Hz|Hz]; [right; eauto|left].
    apply (in_map (fun n => mark (name n) Running)). exact Hz. }
  destruct (unit_run name work mark n) as [o ops] eqn:Eu.
  destruct o as [[n'|e]|]; [|intros H; inversion H|intros H; inversion H].
  specialize (IH (tl orc) P' rest (finished ++ [n'])).
  destruct (loop fuel (tl orc) P' rest (finished ++ [n'])) as [r ops'] eqn:Er.
  cbn [fst snd] in *. intros H x Hx.
  assert (Hin : forall op, In op (map (fun n => mark (name n) Running) L) \/ In op ops \/
                  In op ops' -> In op ((map (fun n => mark (name n) Running) L) ++ ops ++ ops')).
  { intros op [Hop|[Hop|Hop]]; apply in_or_app; [left|right; apply in_or_app; left|
      right; apply in_or_app; right]; exact Hop. }
  destruct (IH H x Hx) as [Hf|[Hfin Hrun]].
  - apply in_app_or in Hf as [Hf|[<-|[]]]; [left; exact Hf|right].
    destruct (unit_run_ok_finished _ _ _ Eu) as [Hnm Hfm]. rewrite Hnm.
    split; [apply Hin; auto|].
    destruct (Hsrc n (or_introl eq_refl)) as [Hm|Hr]; [left; apply Hin; auto|right; exact Hr].
  - right. split; [apply Hin; auto|].
    destruct Hrun as [Hrun|[r0 [Hr0 Hr0n]]]; [left; apply Hin; auto|].
    rewrite <- Hr0n.
    destruct (Hsrc r0 (or_intror Hr0)) as [Hm|Hr]; [left; apply Hin; auto|right].
    destruct Hr as [r1 [Hr1 Hr1n]]. exists r1. split; [exact Hr1|congruence].
Qed.

Hypothesis work_no_running : forall n o ops x, work n = (o, ops) -> ~ In (mark x Running) ops.
Hypothesis mark_inj : forall x y s t, mark x s = mark y t -> x = y /\ s = t.

(** Every Running mark the loop makes is for a pending node each of whose
    dependencies was already finished when the call began or was marked
    Finished by an earlier update. *)
Lemma sched_running_after_deps fuel orc (pending running finished : list N) pre x post :
  snd (loop fuel orc pending running finished) = pre ++ mark x Running :: post ->
  exists n, In n pending /\ name n = x /\
    forall d, In d (depends n) ->
      (exists m, In m finished /\ name m = d) \/ In (mark d Finished) pre.
Proof.
  induction fuel as [|fuel IH] in orc, pending, running, finished, pre, post |- *;
    [intros H; destruct pre; discriminate|].
  cbn [sched]. cbv zeta.
  remember (List.filter (fun n => ready name (depends n) finished) pending) as L eqn:EL.
  remember (List.filter (fun n => negb (ready name (depends n) finished)) pending)
    as P' eqn:EP.
  set (marks := map (fun n => mark (name n) Running) L).
  (* a Running mark among [marks] is for a ready pending node *)
  assert (Hmarks : forall post1, marks = pre ++ mark x Running :: post1 ->
    exists n, In n pending /\ name n = x /\
      forall d, In d (depends n) ->
        (exists m, In m finished /\ name m = d) \/ In (mark d Finished) pre).
  { intros post1 Hm.
    assert (Hxin : In (mark x Running) marks) by (rewrite Hm; apply in_or_app; right; left; reflexivity).
    apply in_map_iff in Hxin as [n [Hn HnL]].
    apply mark_inj in Hn as [Hn _].
    rewrite EL in HnL. apply filter_In in HnL as [Hnp Hrd].
    exists n. split; [exact Hnp|]. split; [exact Hn|].
    intros d Hd. left. rewrite ready_spec in Hrd. exact (Hrd d Hd). }
  (* no Running mark among a unit's updates *)
  assert (Hunit : forall n o ops pre2 post2, unit_run name work mark n = (o, ops) ->
            ops <> pre2 ++ mark x Running :: post2).
  { intros n o ops pre2 post2 Hu Hops.
    assert (Hxin : In (mark x Running) ops) by (rewrite Hops; apply in_or_app; right; left; reflexivity).
    destruct (unit_run_ops name work mark n o ops (mark x Running) Hu Hxin)
      as [[o0 [ops0 [Hw Hin0]]]|[st [Hst Hne]]].
    - exact (work_no_running _ _ _ x Hw Hin0).
    - apply mark_inj in Hst as [_ Hst]. congruence. }
  destruct (running ++ L) as [|y ys] eqn:ER.
  { destruct P'; simpl; intros H; apply (Hmarks post); exact H. }
  destruct (extract (hd 0 orc mod length (y :: ys)) (y :: ys)) as [[n rest]|] eqn:Ex;
    [|simpl; intros H; apply (Hmarks post); exact H].
  destruct (unit_run name work mark n) as [o ops] eqn:Eu.
  destruct o as [[n'|e]|].
  - specialize (IH (tl orc) P' rest (finished ++ [n'])).
    destruct (loop fuel (tl orc) P' rest (finished ++ [n'])) as [r ops'] eqn:Er.
    cbn [snd]. intros H.
    destruct (split_app _ _ _ _ _ H) as [[post1 Hm]|[pre2 [H2 ->]]];
      [exact (Hmarks post1 Hm)|].
    destruct (split_app _ _ _ _ _ H2) as [[post1 Hu]|[pre3 [H3 ->]]];
      [exfalso; exact (Hunit _ _ _ _ _ Eu Hu)|].
    destruct (IH pre3 post H3) as [m [Hm [Hmx Hdeps]]].
    exists m. split; [rewrite EP in Hm; apply filter_In in Hm; apply Hm|].
    split; [exact Hmx|]. intros d Hd.
    destruct (Hdeps d Hd) as [[m' [Hm' Hm'd]]|Hpre].
    + apply in_app_or in Hm' as [Hm'|[<-|[]]]; [left; eauto|right].
      destruct (unit_run_ok_finished _ _ _ Eu) as [Hnm Hfm].
      apply in_or_app. right. apply in_or_app. left. congruence.
    + right. apply in_or_app. right. apply in_or_app. right. exact Hpre.
  - cbn [snd]. intros H.
    destruct (split_app _ _ _ _ _ H) as [[post1 Hm]|[pre2 [H2 ->]]];
      [exact (Hmarks post1 Hm)|exfalso; exact (Hunit _ _ _ _ _ Eu H2)].
  - cbn [snd]. intros H.
    destruct (split_app _ _ _ _ _ H) as [[post1 Hm]|[pre2 [H2 ->]]];
      [exact (Hmarks post1 Hm)|exfalso; exact (Hunit _ _ _ _ _ Eu H2)].
Qed.
End SchedMarks.

Lemma sched_ok_covers {N} (name : N -> string) (depends : N -> list string)
    (work : N -> Outcome (Result N Error) * list Op) (mark : string -> Status -> Op) :
  (forall n n' ops, work n = (Returned (Ok n'), ops) -> name n' = name n) ->
  forall fuel orc (pending running finished fin : list N),
  fst (sched name depends work mark fuel orc pending running finished) = Some (Ok fin) ->
  forall x, In x (pending ++ running ++ finished) -> exists y, In y fin /\ name y = name x.
Proof.
  intros work_name fuel.
  induction fuel as [|fuel IH]; intros orc pending running finished fin;
    [intros H; inversion H|].
  cbn [sched]. cbv zeta.
  pose proof (filter_partition (fun n => ready name (depends n) finished) pending) as Hpart.
  cbv beta in Hpart.
  remember (List.filter (fun n => ready name (depends n) finished) pending) as L eqn:EL.
  remember (List.filter (fun n => negb (ready name (depends n) finished)) pending)
    as P' eqn:EP.
  assert (Hpend : forall x, In x pending -> In x L \/ In x P').
  { intros x Hx. apply (Permutation_in _ Hpart) in Hx. apply in_app_or in Hx. exact Hx. }
  destruct (running ++ L) as [|n0 ns] eqn:ER.
  { apply app_eq_nil in ER as [-> ->].
    destruct P' as [|p P'']; simpl; intros H; inversion H; subst.
    intros x Hx. apply in_app_or in Hx as [Hx|Hx].
    - destruct (Hpend x Hx) as [[]|[]].
    - exists x. split; [exact Hx|reflexivity]. }
  destruct (extract (hd 0 orc mod length (n0 :: ns)) (n0 :: ns)) as [[n rest]|] eqn:Ex;
    [|intros H; inversion H].
  pose proof (extract_perm _ _ _ _ Ex) as Hperm. rewrite <- ER in Hperm.
  unfold unit_run. destruct (work n) as [[[n'|e]|] ops] eqn:Hw;
    [|intros H; inversion H|intros H; inversion H].
  destruct (sched name depends work mark fuel (tl orc) P' rest (finished ++ [n']))
    as [r ops'] eqn:Er.
  cbn [fst]. intros H x Hx. subst r.
  assert (Hrec : forall z, In z (P' ++ rest ++ finished ++ [n']) ->
            exists y, In y fin /\ name y = name z).
  { intros z Hz. apply (IH (tl orc) P' rest (finished ++ [n']) fin); [|exact Hz].
    rewrite Er. reflexivity. }
  assert (Hrun : forall z, In z (running ++ L) -> exists y, In y fin /\ name y = name z).
  { intros z Hz. apply (Permutation_in _ Hperm) in Hz. destruct Hz as [<-|Hz].
    - destruct (Hrec n') as [y [Hy Hyn]].
      + apply in_or_app. right. apply in_or_app. right. apply in_or_app. right. left. reflexivity.
      + exists y. split; [exact Hy|]. rewrite Hyn. exact (work_name _ _ _ Hw).
    - apply Hrec. apply in_or_app. right. apply in_or_app. left. exact Hz. }
  apply in_app_or in Hx as [Hx|Hx].
  - destruct (Hpend x Hx) as [Hx'|Hx'].
    + apply Hrun. apply in_or_app. right. exact Hx'.
    + apply Hrec. apply in_or_app. left. exact Hx'.
  - apply in_app_or in Hx as [Hx|Hx].
    + apply Hrun. apply in_or_app. left. exact Hx.
    + apply Hrec. apply in_or_app. right. apply in_or_app. right. apply in_or_app. left. exact Hx.
Qed.

Lemma job_run_via_sched (os : Os) (orc : list nat) (self : Job) :
  first_missing task_name task_depends (tasks self) = None ->
  snd (job_run os orc self) = snd (job_sched os self (S (length (tasks self))) orc (tasks self) [] []) /\
  (fst (fst (job_run os orc self)) = Some (Ok tt) ->
   exists fin, fst (job_sched os self (S (length (tasks self))) orc (tasks self) [] []) = Some (Ok fin)).
Proof.
  unfold job_run. intros ->.
  destruct (job_sched _ _ _ _ _ _ _) as [[[fin|e]|] ops]; simpl;
    (split; [reflexivity|intros H; inversion H; eauto]).
Qed.

Lemma runner_run_via_sched (os : Os) (orcs : Job -> list nat) (orc : list nat)
    (jobs : list Job) (m m' : JobTracker) u :
  validate jobs jobs m = (Ok u, m') ->
  snd (runner_run os orcs orc jobs m) = snd (runner_sched os orcs (S (length jobs)) orc jobs [] []) /\
  (fst (fst (fst (runner_run os orcs orc jobs m))) = Some (Ok tt) ->
   exists fin, fst (runner_sched os orcs (S (length jobs)) orc jobs [] []) = Some (Ok fin)).
Proof.
  unfold runner_run. intros ->.
  destruct (runner_sched _ _ _ _ _ _ _) as [[[fin|e]|] ops]; simpl;
    (split; [reflexivity|intros H; inversion H; eauto]).
Qed.

Lemma task_unit_name (os : Os) (jn : string) (t t' : Task) ops :
  task_unit os jn t = (Returned (Ok t'), ops) -> task_name t' = task_name t.
Proof. intros H. apply task_unit_ok in H. subst. reflexivity. Qed.

Lemma job_unit_name (os : Os) (orcs : Job -> list nat) (j j' : Job) ops :
  job_unit os orcs j = (Returned (Ok j'), ops) -> job_name j' = job_name j.
Proof. intros H. apply job_unit_ok in H. unfold key in H. congruence. Qed.

Lemma task_unit_no_running (os : Os) (jn : string) (t : Task) o ops x :
  task_unit os jn t = (o, ops) -> ~ In (OpTask jn x Running) ops.
Proof.
  intros Hw Hin.
  apply (proj2 (task_unit_ops os jn t (OpTask jn x Running) ltac:(rewrite Hw; exact Hin))
    jn x Running). reflexivity.
Qed.

Lemma job_unit_no_running (os : Os) (orcs : Job -> list nat) (j : Job) o ops x :
  job_unit os orcs j = (o, ops) -> ~ In (OpJob x Running) ops.
Proof.
  intros Hw Hin. apply (job_unit_ops os orcs j (OpJob x Running) ltac:(rewrite Hw; exact Hin)
    x Running). reflexivity.
Qed.

(** X6: on success, every task (resp. job) is marked Running and marked
    Finished by the run. *)
Theorem run_ok_marks_every_node :
  (forall (os : Os) (orc : list nat) (self : Job),
     fst (fst (job_run os orc self)) = Some (Ok tt) ->
     forall t, In t (tasks self) ->
       In (OpTask (job_name self) (task_name t) Running) (snd (job_run os orc self)) /\
       In (OpTask (job_name self) (task_name t) Finished) (snd (job_run os orc self))) /\
  (forall (os : Os) (orcs : Job -> list nat) (orc : list nat) (jobs : list Job) (m : JobTracker),
     fst (fst (fst (runner_run os orcs orc jobs m))) = Some (Ok tt) ->
     forall j, In j jobs ->
       In (OpJob (job_name j) Running) (snd (runner_run os orcs orc jobs m)) /\
       In (OpJob (job_name j) Finished) (snd (runner_run os orcs orc jobs m))).
Proof.
  split.
  - intros os orc self Hok t Ht.
    destruct (first_missing task_name task_depends (tasks self)) as [d|] eqn:Efm.
    { unfold job_run in Hok. rewrite Efm in Hok. inversion Hok. }
    destruct (job_run_via_sched os orc self Efm) as [Hops Hfin].
    destruct (Hfin Hok) as [fin Hs]. rewrite Hops. unfold job_sched in *.
    destruct (sched_ok_covers _ _ _ _ (task_unit_name os (job_name self)) _ _ _ _ _ _ Hs t
      ltac:(rewrite !app_nil_r; exact Ht)) as [y [Hy Hyn]].
    destruct (sched_ok_marks _ _ _ _ (task_unit_name os (job_name self)) _ _ _ _ _ _ Hs y Hy)
      as [[]|[Hf [Hr|[r [[] _]]]]].
    rewrite <- Hyn. split; assumption.
  - intros os orcs orc jobs m Hok j Hj.
    destruct (validate jobs jobs m) as [[u|e] m'] eqn:Ev.
    2:{ unfold runner_run in Hok. rewrite Ev in Hok. inversion Hok. }
    destruct (runner_run_via_sched os orcs orc jobs m m' u Ev) as [Hops Hfin].
    destruct (Hfin Hok) as [fin Hs]. rewrite Hops. unfold runner_sched in *.
    destruct (sched_ok_covers _ _ _ _ (job_unit_name os orcs) _ _ _ _ _ _ Hs j
      ltac:(rewrite !app_nil_r; exact Hj)) as [y [Hy Hyn]].
    destruct (sched_ok_marks _ _ _ _ (job_unit_name os orcs) _ _ _ _ _ _ Hs y Hy)
      as [[]|[Hf [Hr|[r [[] _]]]]].
    rewrite <- Hyn. split; assumption.
Qed.

Lemma run_ok_marks_every_node_witness :
  In (OpTask "build" "c" Running) (snd (job_run sh [1; 0] diamond)) /\
  In (OpTask "build" "c" Finished) (snd (job_run sh [1; 0] diamond)).
Proof.
  exact (proj1 run_ok_marks_every_node sh [1; 0] diamond
    ltac:(vm_compute; reflexivity) (mk_task "c" ["a"; "b"] [["true"]]) (or_introl eq_refl)).
Defined.

(** X7: a task (resp. job) is only marked Running once every one of its
    dependencies has been marked Finished by an earlier update. *)
Theorem run_starts_node_after_dependencies :
  (forall (os : Os) (orc : list nat) (self : Job) pre x post,
     snd (job_run os orc self) = pre ++ OpTask (job_name self) x Running :: post ->
     exists t, In t (tasks self) /\ task_name t = x /\
       forall d, In d (task_depends t) -> In (OpTask (job_name self) d Finished) pre) /\
  (forall (os : Os) (orcs : Job -> list nat) (orc : list nat) (jobs : list Job) (m : JobTracker)
      pre x post,
     snd (runner_run os orcs orc jobs m) = pre ++ OpJob x Running :: post ->
     exists j, In j jobs /\ job_name j = x /\
       forall d, In d (job_depends j) -> In (OpJob d Finished) pre).
Proof.
  split.
  - intros os orc self pre x post H.
    destruct (first_missing task_name task_depends (tasks self)) as [d|] eqn:Efm.
    { unfold job_run in H. rewrite Efm in H. destruct pre; discriminate. }
    rewrite (proj1 (job_run_via_sched os orc self Efm)) in H. unfold job_sched in H.
    destruct (sched_running_after_deps task_name task_depends (task_unit os (job_name self))
      (fun n st => OpTask (job_name self) n st) (task_unit_name os (job_name self))
      (fun n o ops x => task_unit_no_running os (job_name self) n o ops x)
      ltac:(intros a b s t Hab; injection Hab; auto) _ _ _ _ _ _ _ _ H)
      as [t [Ht [Htx Hdeps]]].
    exists t. split; [exact Ht|]. split; [exact Htx|].
    intros d Hd. destruct (Hdeps d Hd) as [[m [[] _]]|Hp]. exact Hp.
  - intros os orcs orc jobs m pre x post H.
    destruct (validate jobs jobs m) as [[u|e] m'] eqn:Ev.
    2:{ unfold runner_run in H. rewrite Ev in H. destruct pre; discriminate. }
    rewrite (proj1 (runner_run_via_sched os orcs orc jobs m m' u Ev)) in H.
    unfold runner_sched in H.
    destruct (sched_running_after_deps job_name job_depends (job_unit os orcs) OpJob
      (job_unit_name os orcs) (fun n o ops x => job_unit_no_running os orcs n o ops x)
      ltac:(intros a b s t Hab; injection Hab; auto) _ _ _ _ _ _ _ _ H)
      as [j [Hj [Hjx Hdeps]]].
    exists j. split; [exact Hj|]. split; [exact Hjx|].
    intros d Hd. destruct (Hdeps d Hd) as [[m0 [[] _]]|Hp]. exact Hp.
Qed.

Lemma run_starts_node_after_dependencies_witness :
  exists t, In t (tasks diamond) /\ task_name t = "c" /\
    forall d, In d (task_depends t) ->
      In (OpTask "build" d Finished)
         [OpTask "build" "a" Running; OpTask "build" "b" Running;
          OpStep "build" "b" 0 Running; OpStep "build" "b" 0 Finished;
          OpTask "build" "b" Finished; OpStep "build" "a" 0 Running;
          OpLog "build" "a" 0 "ok"; OpStep "build" "a" 0 Finished;
          OpTask "build" "a" Finished].
Proof.
  apply (proj1 run_starts_node_after_dependencies sh [1; 0] diamond _ "c"
    [OpStep "build" "c" 0 Running; OpStep "build" "c" 0 Finished;
     OpTask "build" "c" Finished]).
  vm_compute. reflexivity.
Defined.

(** ** Ready *)

Lemma ready_names {N} (name : N -> string) (ds : list string) (fin fin' : list N) :
  (forall n, In n (map name fin) -> In n (map name fin')) ->
  ready name ds fin = true -> ready name ds fin' = true.
Proof.
  intros Hsub. rewrite !ready_spec. intros H d Hd.
  destruct (H d Hd) as [m [Hm <-]].
  assert (Hin : In (name m) (map name fin')) by (apply Hsub; apply in_map; exact Hm).
  apply in_map_iff in Hin as [m' [Heq Hm']]. exists m'. split; assumption.
Qed.

(** X1: [Task::ready] and [Job::ready] depend only on the names of the
    finished nodes: when every name of [fin] is the name of a node of
    [fin'], a node ready against [fin] is ready against [fin'] (so finishing
    more nodes, or the same ones in another order, keeps it ready).  After
    [Job::depends(n)] a job is ready only once a job named [n] has finished,
    and adding a name it already depends on does not change its readiness. *)
Theorem ready_dependencies_finished :
  (forall (ds : list string) (fin fin' : list Task),
     (forall n, In n (map task_name fin) -> In n (map task_name fin')) ->
     ready task_name ds fin = true -> ready task_name ds fin' = true) /\
  (forall (ds : list string) (fin fin' : list Job),
     (forall n, In n (map job_name fin) -> In n (map job_name fin')) ->
     ready job_name ds fin = true -> ready job_name ds fin' = true) /\
  (forall (j : Job) (n : string) (fin : list Job),
     ready job_name (job_depends (job_add_depends j n)) fin = true ->
     exists u, In u fin /\ job_name u = n) /\
  (forall (j : Job) (n : string) (fin : list Job),
     In n (job_depends j) ->
     ready job_name (job_depends (job_add_depends j n)) fin =
     ready job_name (job_depends j) fin).
Proof.
  split; [|split; [|split]].
  - intros ds fin fin'. apply ready_names.
  - intros ds fin fin'. apply ready_names.
  - intros j n fin H. rewrite ready_spec in H. apply H.
    cbn [job_depends job_add_depends]. apply in_or_app. right. left. reflexivity.
  - intros j n fin Hn. unfold ready. cbn [job_depends job_add_depends].
    rewrite List.forallb_app. cbn [forallb]. rewrite andb_true_r.
    destruct (forallb _ (job_depends j)) eqn:E; [|reflexivity].
    rewrite List.forallb_forall in E. exact (E n Hn).
Qed.

Lemma ready_dependencies_finished_witness :
  ready task_name ["a"; "b"] (tasks diamond) = true.
Proof.
  apply (proj1 ready_dependencies_finished ["a"; "b"]
    [mk_task "b" [] [["true"]]; mk_task "a" [] [["echo"; "ok"]]] (tasks diamond)).
  - intros n Hn. simpl in Hn |- *. tauto.
  - vm_compute. reflexivity.
Defined.

(** ** Tracker isolation *)

Lemma find_first_modify_first_other (name name' : string) f (l : list TaskStatus) :
  name' <> name -> (forall t, ts_name (f t) = ts_name t) ->
  find_first (fun t => String.eqb (ts_name t) name')
    (modify_first (fun t => String.eqb (ts_name t) name) f l) =
  find_first (fun t => String.eqb (ts_name t) name') l.
Proof.
  intros Hne Hf. induction l as [|x l IH]; [reflexivity|]. cbn [modify_first].
  destruct (String.eqb (ts_name x) name) eqn:Ex.
  - apply String.eqb_eq in Ex. cbn [find_first]. rewrite Hf, Ex.
    assert (Hn : String.eqb name name' = false) by (apply String.eqb_neq; congruence).
    rewrite Hn. reflexivity.
  - cbn [find_first]. rewrite IH. reflexivity.
Qed.

Lemma jt_get_modify_ne (name n : string) f (m : JobTracker) :
  n <> name -> jt_get n (jt_modify name f m) = jt_get n m.
Proof.
  intros Hne. unfold jt_get, jt_modify.
  destruct (m !! name); [apply lookup_insert_ne; congruence|reflexivity].
Qed.

(** X2: the trackers' updates stay in place: [JobTracker::insert] makes
    [get] return the record under its name and leaves other names alone;
    [JobTracker::modify] and [TaskTracker::modify] leave the records of other
    jobs alone; [TaskTracker::modify] of one task (with a closure that keeps
    names) leaves [get] of another task unchanged; [StepTracker::modify] of
    one index leaves the other indices unchanged. *)
Theorem tracker_updates_isolated :
  (forall (j : JobStatus) (m : JobTracker), jt_get (js_name j) (jt_insert j m) = Some j) /\
  (forall (j : JobStatus) (m : JobTracker) n,
     n <> js_name j -> jt_get n (jt_insert j m) = jt_get n m) /\
  (forall name f (m : JobTracker) n, n <> name -> jt_get n (jt_modify name f m) = jt_get n m) /\
  (forall (tt : TaskTracker) name f (m : JobTracker) n,
     n <> tt_job_name tt -> jt_get n (tt_modify tt name f m) = jt_get n m) /\
  (forall (tt : TaskTracker) name name' f (m : JobTracker),
     name' <> name -> (forall t, ts_name (f t) = ts_name t) ->
     tt_get tt name' (tt_modify tt name f m) = tt_get tt name' m) /\
  (forall (st : StepTracker) i j f (m : JobTracker),
     i <> j -> st_get st j (st_modify st i f m) = st_get st j m).
Proof.
  split; [|split; [|split; [|split; [|split]]]].
  - intros j m. unfold jt_get, jt_insert. apply lookup_insert_eq.
  - intros j m n Hn. unfold jt_get, jt_insert. apply lookup_insert_ne. congruence.
  - intros name f m n Hn. apply jt_get_modify_ne. exact Hn.
  - intros tt name f m n Hn. unfold tt_modify. apply jt_get_modify_ne. exact Hn.
  - intros tt name name' f m Hne Hf. unfold tt_get, tt_modify, jt_get, jt_modify.
    destruct (m !! tt_job_name tt) as [j|] eqn:E; [|rewrite E; reflexivity].
    rewrite lookup_insert_eq. cbn [js_tasks set_job_tasks].
    apply find_first_modify_first_other; assumption.
  - intros st i j f m Hij. apply st_get_modify_ne. congruence.
Qed.

Lemma tracker_updates_isolated_witness :
  tt_get {| tt_job_name := "build" |} "a"
    (tt_modify {| tt_job_name := "build" |} "b" (set_task_status Failed)
       (jt_insert (job_status_of diamond) ∅)) =
  Some (task_status_of (mk_task "a" [] [["echo"; "ok"]])).
Proof.
  rewrite (proj1 (proj2 (proj2 (proj2 (proj2 tracker_updates_isolated))))
    {| tt_job_name := "build" |} "b" "a" (set_task_status Failed)
    (jt_insert (job_status_of diamond) ∅) ltac:(discriminate) ltac:(reflexivity)).
  vm_compute. reflexivity.
Defined.

(** ** Updates keep the records' shape *)

Lemma map_modify_first {A B} (g : A -> B) (p : A -> bool) (f : A -> A) (l : list A) :
  (forall x, g (f x) = g x) -> map g (modify_first p f l) = map g l.
Proof.
  intros Hg. induction l as [|x l IH]; [reflexivity|]. cbn [modify_first].
  destruct (p x); cbn [map]; [rewrite Hg|rewrite IH]; reflexivity.
Qed.

Lemma length_alter' {A} (f : A -> A) (i : nat) (l : list A) :
  length (alter f i l) = length l.
Proof.
  induction l as [|x l IH] in i |- *; [reflexivity|].
  destruct i as [|i]; [reflexivity|]. exact (f_equal S (IH i)).
Qed.

Lemma jt_modify_shape {B} (g : JobStatus -> B) (name n : string) f (m : JobTracker) :
  (forall j, g (f j) = g j) ->
  option_map g (jt_get n (jt_modify name f m)) = option_map g (jt_get n m).
Proof.
  intros Hg. unfold jt_get, jt_modify.
  destruct (m !! name) as [j|] eqn:E; [|reflexivity].
  destruct (decide (n = name)) as [->|Hne].
  - rewrite lookup_insert_eq, E. cbn. rewrite Hg. reflexivity.
  - rewrite lookup_insert_ne by congruence. reflexivity.
Qed.

Lemma apply_ops_shape :
  forall (ops : list Op) (m : JobTracker) (n : string),
    option_map (fun j => (js_name j, js_depends j,
                  map (fun t => (ts_name t, ts_depends t, length (ts_steps t))) (js_tasks j)))
      (jt_get n (apply_ops ops m)) =
    option_map (fun j => (js_name j, js_depends j,
                  map (fun t => (ts_name t, ts_depends t, length (ts_steps t))) (js_tasks j)))
      (jt_get n m).
Proof.
  intros ops. induction ops as [|op ops IH]; intros m n; [reflexivity|].
  cbn [apply_ops]. rewrite IH.
  destruct op as [jn st|jn tn st|jn tn i st|jn tn i l]; cbn [apply_op];
    unfold st_log, st_modify, tt_modify; apply jt_modify_shape; intros j; destruct j; cbn;
    try reflexivity; f_equal; apply map_modify_first; intros [];
    cbn; rewrite ?length_alter'; reflexivity.
Qed.

(** X3: the updates the runs make to the tracker never add or remove a job
    record, and never change a job's name or dependencies, nor the name,
    dependencies or number of steps of any of its tasks: whatever sequence
    of updates is applied, each record keeps this shape. *)
Theorem tracker_updates_keep_shape :
  forall (ops : list Op) (m : JobTracker) (n : string),
    option_map (fun j => (js_name j, js_depends j,
                  map (fun t => (ts_name t, ts_depends t, length (ts_steps t))) (js_tasks j)))
      (jt_get n (apply_ops ops m)) =
    option_map (fun j => (js_name j, js_depends j,
                  map (fun t => (ts_name t, ts_depends t, length (ts_steps t))) (js_tasks j)))
      (jt_get n m).
Proof. exact apply_ops_shape. Qed.

(** ** StepTracker::log *)

(** X4: [StepTracker::log] appends: logging a sequence of lines to an
    existing step leaves the step's arguments and status as they were and
    extends its output by the lines in order; logging to a step the tracker
    does not have (unknown job, unknown task, or index out of range) changes
    nothing. *)
Theorem step_log_appends_output :
  (forall (st : StepTracker) (i : nat) (lines : list string) (m : JobTracker) a o s,
     st_get st i m = Some (SCommand a o s) ->
     st_get st i (fold_left (fun acc l => st_log st i l acc) lines m) =
       Some (SCommand a (o ++ lines) s)) /\
  (forall (st : StepTracker) (i : nat) (message : string) (m : JobTracker),
     st_get st i m = None -> st_log st i message m = m).
Proof.
  split.
  - intros st i lines. induction lines as [|l lines IH]; intros m a o s H.
    + rewrite app_nil_r. exact H.
    + cbn [fold_left]. replace (o ++ l :: lines) with ((o ++ [l]) ++ lines)
        by (rewrite <- app_assoc; reflexivity).
      apply IH. unfold st_log. rewrite st_get_modify_eq, H. reflexivity.
  - intros st i message m H. unfold st_log, st_modify, tt_modify. apply jt_modify_id.
    intros j Hj. unfold st_get, tt_get, jt_get in H. rewrite Hj in H.
    destruct (find_first (fun t => String.eqb (ts_name t) (st_task_name st)) (js_tasks j))
      as [t|] eqn:Ef.
    + rewrite (modify_first_id _ _ _ t Ef); [destruct j; reflexivity|].
      rewrite alter_out_of_range; [destruct t; reflexivity|].
      apply lookup_ge_None_1. exact H.
    + rewrite modify_first_none by exact Ef. destruct j; reflexivity.
Qed.

Lemma step_log_appends_output_witness :
  st_get (step_tracker "build" "a") 0
    (fold_left (fun acc l => st_log (step_tracker "build" "a") 0 l acc) ["x"; "y"]
       (jt_insert (job_status_of diamond) ∅)) =
  Some (SCommand ["echo"; "ok"] ["x"; "y"] Pending).
Proof.
  apply (proj1 step_log_appends_output (step_tracker "build" "a") 0 ["x"; "y"]
    (jt_insert (job_status_of diamond) ∅) ["echo"; "ok"] [] Pending).
  vm_compute. reflexivity.
Defined.

(** ** Task::run: the step records after a successful run *)

Lemma step_run_ok_form (os : Os) (s : Step) (i : nat) (tr : StepTracker) ops :
  step_run os s i tr = (Returned (Ok tt), ops) ->
  exists lines, ops = step_op tr i Running :: map (log_op tr i) lines ++ [step_op tr i Finished].
Proof.
  destruct s as [args]. unfold step_run.
  destruct (nth_error args 0) as [exe|]; [|discriminate].
  destruct (slice_from 1 args) as [rest|]; [|discriminate].
  destruct (os exe rest) as [e|lines [st|e]]; try discriminate.
  destruct (success st); [|discriminate]. intros H. injection H as <-. eauto.
Qed.

Lemma step_ops_range (os : Os) (ss : list Step) (b s k : nat) (tr : StepTracker) op :
  In op (concat (map (step_ops os ss b tr) (seq s k))) ->
  exists j, b + s <= j /\ ((exists st, op = step_op tr j st) \/ (exists l, op = log_op tr j l)).
Proof.
  intros H. apply in_concat in H as [ops [Hops Hop]].
  apply in_map_iff in Hops as [i [<- Hi]]. apply in_seq in Hi.
  exists (b + i). split; [lia|]. exact (step_run_ops _ _ _ _ _ Hop).
Qed.

(** X5: when [Task::run] returns [Ok], every step of the task whose record
    the tracker holds has status Finished, its arguments unchanged, and an
    output that begins with the output it had before the run: the run only
    ever appends to it (the reader tasks may still append lines after
    [Task::run] returns, which changes neither the status nor this). *)
Theorem task_run_ok_steps_finished :
  forall (os : Os) (t : Task) (tr : StepTracker) (m : JobTracker),
    fst (task_run os t tr) = Returned (Ok tt) ->
    forall i a o s, i < length (steps t) -> st_get tr i m = Some (SCommand a o s) ->
    exists lines, st_get tr i (apply_ops (snd (task_run os t tr)) m) =
                  Some (SCommand a (o ++ lines) Finished).
Proof.
  intros os t tr m H i a o s Hi Hm. unfold task_run in *.
  destruct (steps_run_ok os (steps t) 0 tr H) as [Hok Hops]. rewrite Hops.
  assert (Hs : seq 0 (length (steps t)) = seq 0 i ++ i :: seq (S i) (length (steps t) - S i)).
  { replace (length (steps t)) with (i + S (length (steps t) - S i)) at 1 by lia.
    rewrite seq_app. reflexivity. }
  rewrite Hs, map_app, concat_app, apply_ops_app. cbn [map concat]. rewrite apply_ops_app.
  cbv beta. change (0 + i) with i.
  destruct (nth_error (steps t) i) as [s0|] eqn:Es; [|apply nth_error_None in Es; lia].
  rewrite (nth_error_nth _ _ _ Es).
  specialize (Hok i s0 Es). change (0 + i) with i in Hok.
  destruct (step_run os s0 i tr) as [o0 ops0] eqn:Er. cbn [fst snd] in *. subst o0.
  destruct (step_run_ok_form _ _ _ _ _ Er) as [lines ->].
  exists lines.
  rewrite apply_ops_other_index.
  - apply (st_get_step_run_ops tr i lines Finished _ a o s).
    rewrite apply_ops_other_index; [exact Hm|].
    intros op Hop. destruct (step_ops_index os (steps t) 0 i tr op Hop) as [j [Hj Hop']].
    exists j. split; [lia|exact Hop'].
  - intros op Hop.
    destruct (step_ops_range os (steps t) 0 (S i) _ tr op Hop) as [j [Hj Hop']].
    exists j. split; [lia|exact Hop'].
Qed.

Lemma task_run_ok_steps_finished_witness :
  exists lines,
    st_get (step_tracker "test" "unit") 1
      (apply_ops (snd (task_run sh (mk_task "unit" [] [["true"]; ["echo"; "ok"]])
                         (step_tracker "test" "unit")))
         (jt_insert (job_status_of (mk_job "test" [] [mk_task "unit" [] [["true"]; ["echo"; "ok"]]])) ∅))
    = Some (SCommand ["echo"; "ok"] ([] ++ lines) Finished).
Proof.
  apply (task_run_ok_steps_finished sh (mk_task "unit" [] [["true"]; ["echo"; "ok"]])
    (step_tracker "test" "unit")
    (jt_insert (job_status_of (mk_job "test" [] [mk_task "unit" [] [["true"]; ["echo"; "ok"]]])) ∅)
    ltac:(vm_compute; reflexivity) 1 ["echo"; "ok"] [] Pending).
  - cbn. lia.
  - vm_compute. reflexivity.
Defined.

(** ** Runner::run: the status records *)

Lemma validate_prefix (all js : list Job) (m : JobTracker) :
  exists pre post, js = pre ++ post /\
    snd (validate all js m) = insert_all pre m /\
    (forall j d, In j pre -> In d (job_depends j) -> exists u, In u all /\ job_name u = d) /\
    ((post = [] /\ fst (validate all js m) = Ok tt) \/
     (exists j post' d, post = j :: post' /\ In d (job_depends j) /\
        (forall u, In u all -> job_name u <> d) /\
        fst (validate all js m) = Err (MissingDependency d))).
Proof.
  induction js as [|j js IH] in m |- *.
  - exists [], []. split; [reflexivity|]. split; [reflexivity|].
    split; [intros ? ? []|left; split; reflexivity].
  - cbn [validate].
    destruct (find_first _ (job_depends j)) as [d|] eqn:Ef.
    + exists [], (j :: js). split; [reflexivity|]. split; [reflexivity|].
      split; [intros ? ? []|]. right. exists j, js, d.
      destruct (find_first_some _ _ _ Ef) as [Hin Hp].
      split; [reflexivity|]. split; [exact Hin|]. split; [|reflexivity].
      intros u Hu Hud. apply Bool.negb_true_iff in Hp.
      rewrite <- Bool.not_true_iff_false in Hp. apply Hp.
      apply (present_spec job_name). eauto.
    + destruct (IH (jt_insert (job_status_of j) m)) as [pre [post [Hjs [Hm [Hpre Hpost]]]]].
      exists (j :: pre), post. split; [rewrite Hjs; reflexivity|]. split; [exact Hm|].
      split; [|exact Hpost].
      intros j' d [<-|Hj'] Hd; [|exact (Hpre j' d Hj' Hd)].
      rewrite find_first_none in Ef. specialize (Ef d Hd).
      apply Bool.negb_false_iff in Ef. apply (present_spec job_name) in Ef. exact Ef.
Qed.

(** X8: [Runner::run]'s first loop inserts the status records of the jobs
    in order, and stops at the first job with a dependency that no job of
    [self.jobs] is named after: the tracker then holds the records of exactly
    the jobs before it, and the run returns [MissingDependency] with no
    further update.  When no job has such a dependency every record is
    inserted. *)
Theorem runner_run_inserts_records :
  forall (os : Os) (orcs : Job -> list nat) (orc : list nat) (jobs : list Job) (m : JobTracker),
  exists pre post, jobs = pre ++ post /\
    snd (fst (runner_run os orcs orc jobs m)) = insert_all pre m /\
    (forall j d, In j pre -> In d (job_depends j) -> exists u, In u jobs /\ job_name u = d) /\
    (post = [] \/
     exists j post' d, post = j :: post' /\ In d (job_depends j) /\
       (forall u, In u jobs -> job_name u <> d) /\
       runner_run os orcs orc jobs m = (Some (Err (MissingDependency d)), jobs, insert_all pre m, [])).
Proof.
  intros os orcs orc jobs m.
  destruct (validate_prefix jobs jobs m) as [pre [post [Hjs [Hm [Hpre Hpost]]]]].
  exists pre, post. split; [exact Hjs|]. unfold runner_run.
  destruct (validate jobs jobs m) as [r m'] eqn:Ev. cbn [fst snd] in Hm, Hpost. subst m'.
  destruct Hpost as [[-> ->]|[j [post' [d [-> [Hd [Hu ->]]]]]]].
  - destruct (runner_sched _ _ _ _ _ _ _) as [[[fin|e]|] ops];
      (split; [reflexivity|split; [exact Hpre|left; reflexivity]]).
  - split; [reflexivity|]. split; [exact Hpre|]. right. exists j, post', d. auto.
Qed.

Lemma insert_all_other (js : list Job) (m : JobTracker) n :
  ~ In n (map job_name js) -> jt_get n (insert_all js m) = jt_get n m.
Proof.
  unfold insert_all. induction js as [|j js IH] in m |- *; cbn [fold_left map]; intros Hn;
    [reflexivity|].
  rewrite IH by (intros H; apply Hn; right; exact H).
  unfold jt_get, jt_insert. apply lookup_insert_ne. cbn. intros E. apply Hn. left. exact E.
Qed.

Lemma insert_all_in (js : list Job) (m : JobTracker) j :
  NoDup (map job_name js) -> In j js -> jt_get (job_name j) (insert_all js m) = Some (job_status_of j).
Proof.
  induction js as [|x js IH] in m |- *; cbn [map]; intros Hnd Hj; [contradiction|].
  inversion Hnd as [|? ? Hnin Hnd']; subst.
  change (insert_all (x :: js) m) with (insert_all js (jt_insert (job_status_of x) m)).
  destruct Hj as [->|Hj].
  - transitivity (jt_get (job_name j) (jt_insert (job_status_of j) m)).
    + apply insert_all_other. intros H. apply Hnin. apply list_elem_of_In. exact H.
    + unfold jt_get, jt_insert. apply lookup_insert_eq.
  - apply (IH (jt_insert (job_status_of x) m)); assumption.
Qed.

(** X9: when every job's dependencies are among the jobs and the job names
    are distinct, [Runner::run]'s first loop leaves in the tracker, before any
    job is started, the record built from each job under its name (every
    status Pending, every output empty), and the records under other names as
    they were.  Whatever status and output updates follow, in any order, each
    job's record stays, with the job's name and depends and its tasks' names,
    depends and numbers of steps. *)
Theorem runner_run_records_pending :
  forall (os : Os) (orcs : Job -> list nat) (orc : list nat) (jobs : list Job) (m : JobTracker),
    deps_present job_name job_depends jobs ->
    NoDup (map job_name jobs) ->
    (forall j, In j jobs ->
       jt_get (job_name j) (snd (fst (runner_run os orcs orc jobs m))) = Some (job_status_of j)) /\
    (forall n, ~ In n (map job_name jobs) ->
       jt_get n (snd (fst (runner_run os orcs orc jobs m))) = jt_get n m) /\
    (forall (ops : list Op) j, In j jobs ->
       exists r, jt_get (job_name j) (apply_ops ops (snd (fst (runner_run os orcs orc jobs m))))
                   = Some r /\
         js_name r = job_name j /\ js_depends r = job_depends j /\
         map (fun t => (ts_name t, ts_depends t, length (ts_steps t))) (js_tasks r) =
         map (fun t => (task_name t, task_depends t, length (steps t))) (tasks j)).
Proof.
  intros os orcs orc jobs m Hdeps Hnd.
  destruct (validate_prefix jobs jobs m) as [pre [post [Hjs [Hm [_ Hpost]]]]].
  destruct Hpost as [[-> Hok]|[j [post' [d [-> [Hd [Hu _]]]]]]].
  2:{ exfalso. destruct (Hdeps j d) as [u [Hu' Hud]];
        [rewrite Hjs; apply in_or_app; right; left; reflexivity|exact Hd|].
      exact (Hu u Hu' Hud). }
  rewrite app_nil_r in Hjs. subst pre.
  assert (Hm' : snd (fst (runner_run os orcs orc jobs m)) = insert_all jobs m).
  { unfold runner_run. destruct (validate jobs jobs m) as [r m'] eqn:Ev.
    cbn [fst snd] in Hm, Hok. subst r m'.
    destruct (runner_sched _ _ _ _ _ _ _) as [[[fin|e]|] ops]; reflexivity. }
  rewrite Hm'. split; [|split].
  - intros j Hj. apply insert_all_in; assumption.
  - intros n Hn. apply insert_all_other. exact Hn.
  - intros ops j Hj.
    pose proof (apply_ops_shape ops (insert_all jobs m) (job_name j)) as Hs.
    rewrite (insert_all_in jobs m j Hnd Hj) in Hs.
    destruct (jt_get (job_name j) (apply_ops ops (insert_all jobs m))) as [r|];
      cbn in Hs; [|discriminate].
    injection Hs as H1 H2 H3. exists r. split; [reflexivity|].
    split; [exact H1|]. split; [exact H2|]. rewrite H3, map_map.
    apply map_ext. intros t. cbn. rewrite length_map. reflexivity.
Qed.

Lemma runner_run_records_pending_witness :
  jt_get "build" (snd (fst (runner_run sh (fun _ => [0]) [0] pipeline ∅))) =
  Some (job_status_of diamond).
Proof.
  apply (proj1 (runner_run_records_pending sh (fun _ => [0]) [0] pipeline ∅
    ltac:(unfold deps_present; apply first_missing_present; vm_compute; reflexivity)
    ltac:(apply (bool_decide_unpack _); vm_compute; exact I)) diamond).
  right. left. reflexivity.
Defined.

(** ** Empty inputs *)

(** X10: empty inputs: a job made by [Job::new] (no tasks) runs to [Ok],
    keeps its (empty) tasks and makes no update; a runner with no jobs
    returns [Ok], inserts no record and makes no update. *)
Theorem empty_runs_ok :
  (forall (os : Os) (orc : list nat) (n : string),
     job_run os orc (job_new n) = (Some (Ok tt), job_new n, [])) /\
  (forall (os : Os) (orcs : Job -> list nat) (orc : list nat) (m : JobTracker),
     runner_run os orcs orc [] m = (Some (Ok tt), [], m, [])).
Proof.
  split.
  - intros os orc n. reflexivity.
  - intros os orcs orc m. reflexivity.
Qed.

(** ** Loader::load *)

Lemma load_entries_dir (es : list (Result DirEntry IoError)) (self : Loader) :
  directory (snd (load_entries es self)) = directory self.
Proof.
  induction es as [|[ent|e] es IH] in self |- *; cbn [load_entries]; try reflexivity.
  destruct (yaml_file ent); [|apply IH].
  destruct (entry_file ent) as [e| |j]; cbn [load_file]; try reflexivity.
  rewrite IH. reflexivity.
Qed.

Lemma load_entries_ok (es : list (Result DirEntry IoError)) (self : Loader) :
  (fst (load_entries es self) = Ok tt <->
     forall r, In r es -> exists ent, r = Ok ent /\
       (yaml_file ent = true -> exists j, entry_file ent = Parsed j)) /\
  (fst (load_entries es self) = Ok tt ->
     loader_jobs (snd (load_entries es self)) = loader_jobs self ++ flat_map entry_job es).
Proof.
  induction es as [|[ent|e] es IH] in self |- *; cbn [load_entries].
  - split; [split; [intros _ r []|intros _; reflexivity]|intros _; cbn; rewrite app_nil_r; reflexivity].
  - destruct (yaml_file ent) eqn:Ey.
    + destruct (entry_file ent) as [e| |j] eqn:Ef; cbn [load_file].
      1,2: split; [split; [discriminate|]|discriminate];
        intros H; destruct (H _ (or_introl eq_refl)) as [ent' [Heq Hp]];
        injection Heq as <-; destruct (Hp Ey) as [j Hj]; congruence.
      destruct (IH {| directory := directory self; loader_jobs := loader_jobs self ++ [j] |})
        as [IH1 IH2].
      split.
      * rewrite IH1. split; intros H.
        -- intros r [<-|Hr]; [exists ent; split; [reflexivity|eauto]|exact (H r Hr)].
        -- intros r Hr. apply H. right. exact Hr.
      * intros H. rewrite (IH2 H). cbn [loader_jobs flat_map entry_job].
        rewrite Ey, Ef. rewrite <- app_assoc. reflexivity.
    + destruct (IH self) as [IH1 IH2]. split.
      * rewrite IH1. split; intros H.
        -- intros r [<-|Hr]; [exists ent; split; [reflexivity|congruence]|exact (H r Hr)].
        -- intros r Hr. apply H. right. exact Hr.
      * intros H. rewrite (IH2 H). cbn [flat_map entry_job]. rewrite Ey. reflexivity.
  - split; [split; [discriminate|]|discriminate].
    intros H. destruct (H (Err e) (or_introl eq_refl)) as [ent [Heq _]]. discriminate.
Qed.

Lemma load_entries_err (es : list (Result DirEntry IoError)) (self : Loader) e :
  fst (load_entries es self) = Err e ->
  ((exists ioe, e = Io ioe) \/ e = Serde) /\
  exists pre post, es = pre ++ post /\
    loader_jobs (snd (load_entries es self)) = loader_jobs self ++ flat_map entry_job pre.
Proof.
  induction es as [|[ent|e'] es IH] in self |- *; cbn [load_entries]; [discriminate| |].
  - destruct (yaml_file ent) eqn:Ey.
    + destruct (entry_file ent) as [ioe| |j] eqn:Ef; cbn [load_file].
      * intros H. injection H as <-. split; [left; eauto|].
        exists [], (Ok ent :: es). split; [reflexivity|]. cbn. rewrite app_nil_r. reflexivity.
      * intros H. injection H as <-. split; [right; reflexivity|].
        exists [], (Ok ent :: es). split; [reflexivity|]. cbn. rewrite app_nil_r. reflexivity.
      * intros H. destruct (IH _ H) as [He [pre [post [-> Hj]]]]. split; [exact He|].
        exists (Ok ent :: pre), post. split; [reflexivity|]. rewrite Hj.
        cbn [loader_jobs flat_map entry_job]. rewrite Ey, Ef. rewrite <- app_assoc. reflexivity.
    + intros H. destruct (IH self H) as [He [pre [post [-> Hj]]]]. split; [exact He|].
      exists (Ok ent :: pre), post. split; [reflexivity|]. rewrite Hj.
      cbn [flat_map entry_job]. rewrite Ey. reflexivity.
  - intros H. injection H as <-. split; [left; eauto|].
    exists [], (Err e' :: es). split; [reflexivity|]. cbn. rewrite app_nil_r. reflexivity.
Qed.

Lemma load_err (fs : Fs) (self : Loader) e :
  fst (load fs self) = Err e ->
  ((exists ioe, e = Io ioe) \/ e = Serde) /\
  exists pre, loader_jobs (snd (load fs self)) = loader_jobs self ++ flat_map entry_job pre /\
    forall es, fs (directory self) = Ok es -> exists post, es = pre ++ post.
Proof.
  unfold load. destruct (fs (directory self)) as [es|ioe] eqn:Efs.
  - intros H. destruct (load_entries_err es self e H) as [He [pre [post [Hes Hj]]]].
    split; [exact He|]. exists pre. split; [exact Hj|].
    intros es' Hes'. injection Hes' as <-. eauto.
  - intros H. injection H as <-. split; [left; eauto|].
    exists []. split; [cbn; rewrite app_nil_r; reflexivity|intros es Hes; discriminate].
Qed.

(** X11: [Loader::load] reads only the regular files named [*.yml] or
    [*.yaml] of the directory, in the order [read_dir] yields them: it
    returns [Ok] exactly when the directory and every entry can be read and
    every such file opens and parses, and then appends the files' jobs, in
    that order, to [self.jobs]; other entries are skipped whatever they
    hold.  It never changes [self.directory]. *)
Theorem load_collects_yaml_jobs :
  forall (fs : Fs) (self : Loader),
    directory (snd (load fs self)) = directory self /\
    (fst (load fs self) = Ok tt <->
       exists es, fs (directory self) = Ok es /\
         forall r, In r es -> exists ent, r = Ok ent /\
           (yaml_file ent = true -> exists j, entry_file ent = Parsed j)) /\
    (forall es, fs (directory self) = Ok es -> fst (load fs self) = Ok tt ->
       loader_jobs (snd (load fs self)) = loader_jobs self ++ flat_map entry_job es).
Proof.
  intros fs self. unfold load.
  destruct (fs (directory self)) as [es|e] eqn:Efs.
  - destruct (load_entries_ok es self) as [H1 H2].
    split; [apply load_entries_dir|]. split.
    + rewrite H1. split; [intros H; exists es; auto|].
      intros [es' [Hes H]]. injection Hes as <-. exact H.
    + intros es' Hes H. injection Hes as <-. exact (H2 H).
  - split; [reflexivity|]. split; [|intros es Hes; discriminate].
    split; [discriminate|intros [es [Hes _]]; discriminate].
Qed.

Lemma load_collects_yaml_jobs_witness :
  loader_jobs (snd (load (fun _ => Ok
      [Ok {| entry_is_file := true; entry_extension := Some "yml"; entry_file := Parsed diamond |};
       Ok {| entry_is_file := true; entry_extension := Some "txt"; entry_file := ParseFailed |};
       Ok {| entry_is_file := false; entry_extension := Some "yaml"; entry_file := ParseFailed |};
       Ok {| entry_is_file := true; entry_extension := Some "yaml"; entry_file := Parsed missing_job |}])
    (loader_new ".bed"))) =
  loader_jobs (loader_new ".bed") ++ [diamond; missing_job].
Proof.
  exact (proj2 (proj2 (load_collects_yaml_jobs
    (fun _ => Ok
      [Ok {| entry_is_file := true; entry_extension := Some "yml"; entry_file := Parsed diamond |};
       Ok {| entry_is_file := true; entry_extension := Some "txt"; entry_file := ParseFailed |};
       Ok {| entry_is_file := false; entry_extension := Some "yaml"; entry_file := ParseFailed |};
       Ok {| entry_is_file := true; entry_extension := Some "yaml"; entry_file := Parsed missing_job |}])
    (loader_new ".bed"))) _ eq_refl
    ltac:(vm_compute; reflexivity)).
Defined.

Lemma load_entries_err_at (es : list (Result DirEntry IoError)) (self : Loader) e :
  fst (load_entries es self) = Err e ->
  exists pre x post, es = pre ++ x :: post /\
    (forall r, In r pre -> exists ent, r = Ok ent /\
       (yaml_file ent = true -> exists j, entry_file ent = Parsed j)) /\
    loader_jobs (snd (load_entries es self)) = loader_jobs self ++ flat_map entry_job pre /\
    ((exists ioe, x = Err ioe /\ e = Io ioe) \/
     (exists ent, x = Ok ent /\ yaml_file ent = true /\
        ((exists ioe, entry_file ent = OpenFailed ioe /\ e = Io ioe) \/
         (entry_file ent = ParseFailed /\ e = Serde)))).
Proof.
  induction es as [|[ent|e'] es IH] in self |- *; cbn [load_entries]; [discriminate| |].
  - destruct (yaml_file ent) eqn:Ey.
    + destruct (entry_file ent) as [ioe| |j] eqn:Ef; cbn [load_file].
      * intros H. injection H as <-. exists [], (Ok ent), es.
        split; [reflexivity|]. split; [intros r []|].
        split; [cbn; rewrite app_nil_r; reflexivity|].
        right. exists ent. split; [reflexivity|]. split; [exact Ey|].
        left. exists ioe. split; [exact Ef|reflexivity].
      * intros H. injection H as <-. exists [], (Ok ent), es.
        split; [reflexivity|]. split; [intros r []|].
        split; [cbn; rewrite app_nil_r; reflexivity|].
        right. exists ent. split; [reflexivity|]. split; [exact Ey|].
        right. split; [exact Ef|reflexivity].
      * intros H. destruct (IH _ H) as [pre [x [post [-> [Hpre [Hj Hx]]]]]].
        exists (Ok ent :: pre), x, post. split; [reflexivity|]. split.
        { intros r [<-|Hr]; [exists ent; split; [reflexivity|eauto]|exact (Hpre r Hr)]. }
        split; [|exact Hx]. rewrite Hj. cbn [loader_jobs flat_map entry_job].
        rewrite Ey, Ef. rewrite <- app_assoc. reflexivity.
    + intros H. destruct (IH self H) as [pre [x [post [-> [Hpre [Hj Hx]]]]]].
      exists (Ok ent :: pre), x, post. split; [reflexivity|]. split.
      { intros r [<-|Hr]; [exists ent; split; [reflexivity|congruence]|exact (Hpre r Hr)]. }
      split; [|exact Hx]. rewrite Hj. cbn [flat_map entry_job]. rewrite Ey. reflexivity.
  - intros H. injection H as <-. exists [], (Err e'), es.
    split; [reflexivity|]. split; [intros r []|].
    split; [cbn; rewrite app_nil_r; reflexivity|].
    left. exists e'. split; reflexivity.
Qed.

(** X12: when [Loader::load] fails, either the directory could not be read
    (the error is [Io] and the loader is unchanged), or the failure is at one
    entry of the listing: every entry before it was read and every YAML file
    among them parsed, their jobs stay in [self.jobs] in order, and the
    failing entry is an unreadable entry ([Io]) or a YAML file that does not
    open ([Io]) or does not parse ([Serde]). *)
Theorem load_error_keeps_loaded :
  forall (fs : Fs) (self : Loader) e,
    fst (load fs self) = Err e ->
    (exists ioe, fs (directory self) = Err ioe /\ e = Io ioe /\ snd (load fs self) = self) \/
    (exists es pre x post, fs (directory self) = Ok es /\ es = pre ++ x :: post /\
       (forall r, In r pre -> exists ent, r = Ok ent /\
          (yaml_file ent = true -> exists j, entry_file ent = Parsed j)) /\
       loader_jobs (snd (load fs self)) = loader_jobs self ++ flat_map entry_job pre /\
       ((exists ioe, x = Err ioe /\ e = Io ioe) \/
        (exists ent, x = Ok ent /\ yaml_file ent = true /\
           ((exists ioe, entry_file ent = OpenFailed ioe /\ e = Io ioe) \/
            (entry_file ent = ParseFailed /\ e = Serde))))).
Proof.
  intros fs self e. unfold load. destruct (fs (directory self)) as [es|ioe] eqn:Efs.
  - intros H. right.
    destruct (load_entries_err_at es self e H) as [pre [x [post [Hes [Hpre [Hj Hx]]]]]].
    exists es, pre, x, post. exact (conj eq_refl (conj Hes (conj Hpre (conj Hj Hx)))).
  - intros H. injection H as <-. left. exists ioe. split; [reflexivity|split; reflexivity].
Qed.

Lemma load_error_keeps_loaded_witness :
    (exists ioe, broken_dir (directory (loader_new ".bed")) = Err ioe /\ Serde = Io ioe /\ snd (load broken_dir (loader_new ".bed")) = (loader_new ".bed")) \/
    (exists es pre x post, broken_dir (directory (loader_new ".bed")) = Ok es /\ es = pre ++ x :: post /\
       (forall r, In r pre -> exists ent, r = Ok ent /\
          (yaml_file ent = true -> exists j, entry_file ent = Parsed j)) /\
       loader_jobs (snd (load broken_dir (loader_new ".bed"))) = loader_jobs (loader_new ".bed") ++ flat_map entry_job pre /\
       ((exists ioe, x = Err ioe /\ Serde = Io ioe) \/
        (exists ent, x = Ok ent /\ yaml_file ent = true /\
           ((exists ioe, entry_file ent = OpenFailed ioe /\ Serde = Io ioe) \/
            (entry_file ent = ParseFailed /\ Serde = Serde))))).
Proof.
  exact (load_error_keeps_loaded broken_dir (loader_new ".bed") Serde
    ltac:(vm_compute; reflexivity)).
Defined.

(** ** main *)

(** X13: in [main]'s build future, when [Loader::load] fails no job runs:
    the future returns that error (an [Io] or [Serde] error), no status
    record is inserted and no update is made, so on the fresh tracker the
    [/job/:name] handler answers [None] for every name. *)
Theorem build_load_error_runs_nothing :
  forall (fs : Fs) (dir : string) (os : Os) (orcs : Job -> list nat) (orc : list nat) e l,
    load fs (loader_new dir) = (Err e, l) ->
    build fs dir os orcs orc ∅ = (Some (Err e), ∅, []) /\
    ((exists ioe, e = Io ioe) \/ e = Serde) /\
    (forall name, get_job (snd (fst (build fs dir os orcs orc ∅))) name = None).
Proof.
  intros fs dir os orcs orc e l H.
  assert (Hb : build fs dir os orcs orc ∅ = (Some (Err e), ∅, [])).
  { unfold build. rewrite H. reflexivity. }
  split; [exact Hb|]. split.
  - apply (proj1 (load_err fs (loader_new dir) e ltac:(rewrite H; reflexivity))).
  - intros name. rewrite Hb. apply lookup_empty.
Qed.

Lemma build_load_error_runs_nothing_witness :
  build (fun _ => Err (IoErr "NotFound")) ".bed" sh (fun _ => []) [] ∅ =
    (Some (Err (Io (IoErr "NotFound"))), ∅, []) /\
  ((exists ioe, Io (IoErr "NotFound") = Io ioe) \/ Io (IoErr "NotFound") = Serde) /\
  (forall name, get_job (snd (fst (build (fun _ => Err (IoErr "NotFound")) ".bed" sh
                                    (fun _ => []) [] ∅))) name = None).
Proof.
  exact (build_load_error_runs_nothing (fun _ => Err (IoErr "NotFound")) ".bed" sh
    (fun _ => []) [] (Io (IoErr "NotFound")) (loader_new ".bed") eq_refl).
Defined.
